(** * The AIGER reader of mockturtle (LSOracle fork): [NameMap] and [aiger_reader]

    Shallow embedding of
    [lib/mockturtle/include/mockturtle/io/aiger_reader.hpp].

    - [NameMap] is the class of lines 42-106: two hash maps, updated by
      [insert].
    - [aiger_reader] is the callback class of lines 130-291.  It is a template
      over the network type [Ntk]; the network is rendered as the type class
      [Network], one field per member function the reader calls.
    - The class does its last step in its destructor (lines 144-194); the
      destructor is the function [destructor] below.

    Machine integers are natural numbers of [N] with the wrap-around at [2^32]
    written where C++ computes in [unsigned] or [uint32_t].  A vector read is a
    list lookup; a read past the end is the outcome [Undefined]. *)

From stdpp Require Import gmap strings list fin_maps pretty.
From Stdlib Require Import ZArith NArith.

Open Scope N_scope.

(** ** Outcomes of a callback *)

(** What a call of a member function of the reader can end in.  The reader
    throws nothing:
    - [Done]: the call returned;
    - [Aborted]: an [assert] failed (only when assertions are compiled in);
    - [Undefined]: [operator[]] of a [std::vector] was applied past its end;
    - [Timeout]: the model's fuel for a loop ran out (not a behaviour of the
      code). *)
Inductive outcome (A : Type) : Type :=
| Done (a : A)
| Aborted
| Undefined
| Timeout.

Arguments Done {A} a.
Arguments Aborted {A}.
Arguments Undefined {A}.
Arguments Timeout {A}.

(** [outcome] is a monad in the sense of stdpp: [x ← c; k] runs [k] on the
    result of [c] when [c] returned, and ends as [c] did otherwise. *)
#[global] Instance outcome_ret : MRet outcome := @Done.
#[global] Instance outcome_bind : MBind outcome := λ A B k c,
  match c with
  | Done a => k a
  | Aborted => Aborted
  | Undefined => Undefined
  | Timeout => Timeout
  end.

(** [unsigned] and [uint32_t] arithmetic. *)
Definition wrap32 (n : N) : N := n mod 2 ^ 32.

(** [std::to_string] of an unsigned number: its decimal digits. *)
Definition to_string (n : N) : string := pretty n.

(** [v[i]] on a [std::vector], unchecked. *)
Definition vector_at {A : Type} (v : list A) (i : N) : outcome A :=
  match v !! N.to_nat i with
  | Some a => Done a
  | None => Undefined
  end.

(** [assert( c )]: nothing when assertions are compiled out ([NDEBUG]). *)
Definition assert (assertions : bool) (c : bool) : outcome unit :=
  if assertions && negb c then Aborted else Done tt.

(** ** NameMap (lines 42-106) *)

Module NameMap.
Section defs.
Context {signal : Type} `{Countable signal}.

(** [StorageContainerMap] and [StorageContainerReverseMap] at their default
    arguments: [std::unordered_map]. *)
Record t : Type := mk {
  _names : gmap signal (list string);
  _rev_names : gmap string signal
}.

(** [NameMap() = default]. *)
Definition empty : t := {| _names := ∅; _rev_names := ∅ |}.

(** The line [insert] writes to [std::cout], if any. *)
Definition insert_warning (name : string) (m : t) : option string :=
  match _rev_names m !! name with
  | Some _ => Some ("[w] signal name `" +:+ name +:+ "` is used twice")
  | None => None
  end.

(** [insert] (lines 51-71).  [std::unordered_map::insert] adds the pair only
    when the key is absent. *)
Definition insert (s : signal) (name : string) (m : t) : t :=
  {| _names :=
       match _names m !! s with
       | None => <[s := [name]]> (_names m)
       | Some l => <[s := l ++ [name]]> (_names m)
       end;
     _rev_names :=
       match _rev_names m !! name with
       | Some _ => _rev_names m
       | None => <[name := s]> (_rev_names m)
       end |}.

(** [operator[]] (lines 73-76): [_names[s]] adds an empty entry when [s] has
    none. *)
Definition index (s : signal) (m : t) : list string * t :=
  match _names m !! s with
  | Some l => (l, m)
  | None => ([], {| _names := <[s := []]> (_names m); _rev_names := _rev_names m |})
  end.

(** [get_name] (lines 83-86) and the const [operator[]]: [_names.at( s )]
    throws [std::out_of_range] when [s] has no entry, here [None]. *)
Definition get_name (s : signal) (m : t) : option (list string) := _names m !! s.

(** [has_name] (lines 88-96). *)
Definition has_name (s : signal) (name : string) (m : t) : bool :=
  match _names m !! s with
  | None => false
  | Some l => bool_decide (name ∈ l)
  end.

(** [get_name_to_signal_mapping] (lines 98-101). *)
Definition get_name_to_signal_mapping (m : t) : gmap string signal := _rev_names m.

(** A sequence of [insert] calls, first call first. *)
Definition insert_all (calls : list (signal * string)) (m : t) : t :=
  foldl (λ acc c, insert c.1 c.2 acc) m calls.

(** What a sequence of calls says about one name or one signal: the signal
    of the first and of the last call under [name], and the names of the
    calls for [s], in call order. *)
Definition first_signal_named (name : string) (calls : list (signal * string)) : option signal :=
  fst <$> head (filter (λ c, c.2 = name) calls).

Definition last_signal_named (name : string) (calls : list (signal * string)) : option signal :=
  fst <$> last (filter (λ c, c.2 = name) calls).

Definition names_given (s : signal) (calls : list (signal * string)) : list string :=
  (filter (λ c, c.1 = s) calls).*2.
End defs.
Arguments t signal {_ _}.
End NameMap.

(** ** The network the reader builds

    [Ntk] is a template parameter.  The reader calls the member functions
    below; [has_set_name_v] and [has_set_output_name_v] are the two traits it
    tests with [if constexpr].  A member function that changes the network
    returns the new network. *)
Class Network (Ntk signal : Type) `{Countable signal} : Type := {
  has_set_name_v : bool;
  has_set_output_name_v : bool;
  get_constant : bool → Ntk → signal;
  create_pi : Ntk → signal * Ntk;
  create_po : signal → Ntk → Ntk;
  create_ro : Ntk → signal * Ntk;
  create_ri : signal → Z → Ntk → Ntk;
  create_not : signal → Ntk → signal * Ntk;
  create_and : signal → signal → Ntk → signal * Ntk;
  has_name : signal → Ntk → bool;
  set_name : signal → string → Ntk → Ntk;
  has_output_name : N → Ntk → bool;
  set_output_name : N → string → Ntk → Ntk
}.

(** [lorina::latch_init_value]. *)
Inductive latch_init_value : Type := ZERO | ONE | NONDETERMINISTIC.

(** The events of [lorina::aiger_reader], one per callback. *)
Inductive event : Type :=
| header (m num_inputs num_latches o a : N)
| input_name (index : N) (name : string)
| output_name (index : N) (name : string)
| latch_name (index : N) (name : string)
| and_gate (index left_lit right_lit : N)
| latch (index next : N) (reset : latch_init_value)
| output (index lit : N).

(** ** aiger_reader (lines 130-291) *)

Module aiger_reader.
Section defs.
Context {Ntk signal : Type} `{Network Ntk signal}.

(** The data members (lines 284-290).  [_names] is a pointer in the source:
    [None] is [nullptr], [Some m] the [NameMap] it points to. *)
Record t : Type := mk {
  _ntk : Ntk;
  _num_inputs : N;
  outputs : list (N * string);
  signals : list signal;
  latches : list (N * Z * string);
  _names : option (NameMap.t signal)
}.

(** The constructor (line 134). *)
Definition new (ntk : Ntk) (names : option (NameMap.t signal)) : t :=
  {| _ntk := ntk; _num_inputs := 0; outputs := []; signals := [];
     latches := []; _names := names |}.

(** The fragment that turns a literal into a signal; the source has it
    inline three times (lines 150-154, 174-178, 254-264):
    [signals[lit >> 1]], then [create_not] when [lit & 1]. *)
Definition resolve (sigs : list signal) (lit : N) (ntk : Ntk) : outcome (signal * Ntk) :=
  (s ← vector_at sigs (N.shiftr lit 1);
   if N.testbit lit 0 then Done (create_not s ntk) else Done (s, ntk)).

(** First loop of [on_header] (lines 204-216), from counter value [i].  The
    counter is [auto i = 0u], an [unsigned]; the bound is a [uint64_t].
    [signals.back()] is the signal just pushed. *)
Fixpoint header_inputs (fuel : nat) (i num_inputs : N) (sigs : list signal) (ntk : Ntk)
  : outcome (list signal * Ntk) :=
  if i <? num_inputs then
    match fuel with
    | O => Timeout
    | S fuel' =>
      let '(s, ntk1) := create_pi ntk in
      let ntk2 :=
        if has_set_name_v then
          if has_name s ntk1 then ntk1
          else set_name s ("pi" +:+ to_string i) ntk1
        else ntk1 in
      header_inputs fuel' (wrap32 (i + 1)) num_inputs (sigs ++ [s]) ntk2
    end
  else Done (sigs, ntk).

(** Second loop of [on_header] (lines 219-222). *)
Fixpoint header_latches (fuel : nat) (i num_latches : N) (sigs : list signal) (ntk : Ntk)
  : outcome (list signal * Ntk) :=
  if i <? num_latches then
    match fuel with
    | O => Timeout
    | S fuel' =>
      let '(s, ntk1) := create_ro ntk in
      header_latches fuel' (wrap32 (i + 1)) num_latches (sigs ++ [s]) ntk1
    end
  else Done (sigs, ntk).

(** [on_header] (lines 196-223). *)
Definition on_header (fuel : nat) (m num_inputs num_latches o a : N) (r : t) : outcome t :=
  (let sigs0 := signals r ++ [get_constant false (_ntk r)] in
   '(sigs1, ntk1) ← header_inputs fuel 0 num_inputs sigs0 (_ntk r);
   '(sigs2, ntk2) ← header_latches fuel 0 num_latches sigs1 ntk1;
   Done {| _ntk := ntk2; _num_inputs := wrap32 num_inputs; outputs := outputs r;
           signals := sigs2; latches := latches r; _names := _names r |}).

(** [on_input_name] (lines 225-231). *)
Definition on_input_name (index : N) (name : string) (r : t) : outcome t :=
  if has_set_name_v then
    (s ← vector_at (signals r) (wrap32 (1 + index));
     Done {| _ntk := set_name s name (_ntk r); _num_inputs := _num_inputs r;
             outputs := outputs r; signals := signals r; latches := latches r;
             _names := _names r |})
  else Done r.

(** [on_output_name] (lines 233-239). *)
Definition on_output_name (index : N) (name : string) (r : t) : outcome t :=
  if has_set_output_name_v then
    Done {| _ntk := set_output_name index name (_ntk r); _num_inputs := _num_inputs r;
            outputs := outputs r; signals := signals r; latches := latches r;
            _names := _names r |}
  else Done r.

(** [on_latch_name] (lines 241-247). *)
Definition on_latch_name (index : N) (name : string) (r : t) : outcome t :=
  if has_set_name_v then
    (s ← vector_at (signals r) (wrap32 (1 + _num_inputs r + index));
     Done {| _ntk := set_name s name (_ntk r); _num_inputs := _num_inputs r;
             outputs := outputs r; signals := signals r; latches := latches r;
             _names := _names r |})
  else Done r.

(** [on_and] (lines 249-267).  [signals.size()] is a [size_t], [index] an
    [unsigned]: they are compared as numbers. *)
Definition on_and (assertions : bool) (index left_lit right_lit : N) (r : t) : outcome t :=
  (_ ← assert assertions (bool_decide (N.of_nat (length (signals r)) = index));
   '(left_sig, ntk1) ← resolve (signals r) left_lit (_ntk r);
   '(right_sig, ntk2) ← resolve (signals r) right_lit ntk1;
   let '(g, ntk3) := create_and left_sig right_sig ntk2 in
   Done {| _ntk := ntk3; _num_inputs := _num_inputs r; outputs := outputs r;
           signals := signals r ++ [g]; latches := latches r;
           _names := _names r |}).

(** The [int8_t] that [on_latch] stores for a reset value (line 272). *)
Definition reset_code (reset : latch_init_value) : Z :=
  match reset with
  | NONDETERMINISTIC => (-1)%Z
  | ONE => 1%Z
  | ZERO => 0%Z
  end.

(** [on_latch] (lines 269-274).  [EmptyString] is the literal of line 273. *)
Definition on_latch (index next : N) (reset : latch_init_value) (r : t) : outcome t :=
  Done {| _ntk := _ntk r; _num_inputs := _num_inputs r; outputs := outputs r;
          signals := signals r;
          latches := latches r ++ [(next, reset_code reset, EmptyString)];
          _names := _names r |}.

(** [on_output] (lines 276-281). *)
Definition on_output (assertions : bool) (index lit : N) (r : t) : outcome t :=
  (_ ← assert assertions (bool_decide (index = N.of_nat (length (outputs r))));
   Done {| _ntk := _ntk r; _num_inputs := _num_inputs r;
           outputs := outputs r ++ [(lit, EmptyString)];
           signals := signals r; latches := latches r;
           _names := _names r |}).

(** *** The destructor (lines 144-194) *)

(** What the two loops carry: the network, the [NameMap] behind [_names],
    and the counters [output_idx] and [latch_idx]. *)
Record finalizer : Type := mk_finalizer {
  f_ntk : Ntk;
  f_names : option (NameMap.t signal);
  output_idx : N;
  latch_idx : N
}.

(** Lines 161-164 and 186-189, [name] being the default name. *)
Definition default_output_name (idx : N) (name : string) (ntk : Ntk) : Ntk :=
  if has_set_output_name_v then
    if has_output_name idx ntk then ntk else set_output_name idx name ntk
  else ntk.

(** Body of the loop over [outputs] (lines 149-166). *)
Definition output_step (sigs : list signal) (f : finalizer) (out : N * string)
  : outcome finalizer :=
  ('(s, ntk1) ← resolve sigs out.1 (f_ntk f);
   let names1 := NameMap.insert s out.2 <$> f_names f in
   let ntk2 := create_po s ntk1 in
   let ntk3 := default_output_name (output_idx f) ("po" +:+ to_string (output_idx f)) ntk2 in
   Done {| f_ntk := ntk3; f_names := names1;
           output_idx := wrap32 (output_idx f + 1);
           latch_idx := latch_idx f |}).

(** Body of the loop over [latches] (lines 171-192). *)
Definition latch_step (sigs : list signal) (f : finalizer) (l : N * Z * string)
  : outcome finalizer :=
  ('(s, ntk1) ← resolve sigs l.1.1 (f_ntk f);
   let names1 := NameMap.insert s (l.2 +:+ "_next") <$> f_names f in
   let ntk2 := create_ri s l.1.2 ntk1 in
   let ntk3 := default_output_name (output_idx f) ("li" +:+ to_string (latch_idx f)) ntk2 in
   Done {| f_ntk := ntk3; f_names := names1;
           output_idx := wrap32 (output_idx f + 1);
           latch_idx := wrap32 (latch_idx f + 1) |}).

(** A range-based [for] whose body may end the run. *)
Fixpoint for_each {A S : Type} (body : S → A → outcome S) (l : list A) (s : S) : outcome S :=
  match l with
  | [] => Done s
  | a :: l' => (s' ← body s a; for_each body l' s')
  end.

(** The two loops, from the start of the destructor.  [latch_idx] is declared
    between the loops (line 168); the first loop does not read it. *)
Definition finalize_outputs (r : t) : outcome finalizer :=
  for_each (output_step (signals r)) (outputs r)
    {| f_ntk := _ntk r; f_names := _names r; output_idx := 0; latch_idx := 1 |}.

Definition finalize_latches (r : t) (f : finalizer) : outcome finalizer :=
  for_each (latch_step (signals r)) (latches r) f.

(** [~aiger_reader]: the network and the [NameMap] it leaves behind. *)
Definition destructor (r : t) : outcome (Ntk * option (NameMap.t signal)) :=
  (f1 ← finalize_outputs r;
   f2 ← finalize_latches r f1;
   Done (f_ntk f2, f_names f2)).

(** *** Driving the reader *)

(** The event source calls one callback per event. *)
Definition deliver (fuel : nat) (assertions : bool) (e : event) (r : t) : outcome t :=
  match e with
  | header m i l o a => on_header fuel m i l o a r
  | input_name index name => on_input_name index name r
  | output_name index name => on_output_name index name r
  | latch_name index name => on_latch_name index name r
  | and_gate index left_lit right_lit => on_and assertions index left_lit right_lit r
  | latch index next reset => on_latch index next reset r
  | output index lit => on_output assertions index lit r
  end.

Definition run_events (fuel : nat) (assertions : bool) (es : list event) (r : t) : outcome t :=
  for_each (λ r e, deliver fuel assertions e r) es r.

(** The use shown in the class's comment (lines 123-127),
    [lorina::read_aiger( "file.aig", aiger_reader( aig ) )]: the reader is a
    temporary, built on the network, fed the events of the file, and
    destroyed when the call is over. *)
Definition decode (fuel : nat) (assertions : bool) (es : list event)
    (ntk : Ntk) (names : option (NameMap.t signal))
  : outcome (Ntk * option (NameMap.t signal)) :=
  (r ← run_events fuel assertions es (new ntk names); destructor r).
End defs.
Arguments t Ntk signal {_ _}.
Arguments finalizer Ntk signal {_ _}.
End aiger_reader.

(** ** An And-Inverter graph to run the reader on *)

(** Modelled from the spec: the target logic-network container, which the
    reader includes as [../networks/aig.hpp] and which is not among the
    sources.  The spec (sections 1, 3 and 6) gives its contract: signals are
    handles owned by the graph, node 0 is the constant false, a literal's
    polarity is an inversion of the reference, output and register-input
    positions share one numbering (outputs first).  The model is the plainest
    graph with that contract: a signal is a node index with a complement bit,
    every creation takes the next free node index, [create_not] flips the
    complement bit, and names are kept per signal and per output position. *)
Module aig.
Record signal : Type := mk_signal { index : N; complement : bool }.

#[global] Instance signal_eq_dec : EqDecision signal.
Proof. solve_decision. Defined.

#[global] Instance signal_countable : Countable signal :=
  inj_countable' (λ s, (index s, complement s)) (λ p, mk_signal p.1 p.2)
    (λ s, match s with mk_signal _ _ => eq_refl end).

(** What sits at an output position. *)
Inductive slot : Type :=
| po (s : signal)
| ri (s : signal) (reset : Z).

Record t : Type := mk {
  num_nodes : N;
  inputs : list N;
  registers : list N;
  gates : list (N * signal * signal);
  outs : list slot;
  signal_names : gmap signal string;
  output_names : gmap N string
}.

(** The graph with its constant node only. *)
Definition empty : t :=
  {| num_nodes := 1; inputs := []; registers := []; gates := []; outs := [];
     signal_names := ∅; output_names := ∅ |}.

Definition get_constant (value : bool) (g : t) : signal :=
  {| index := 0; complement := value |}.

Definition create_pi (g : t) : signal * t :=
  ({| index := num_nodes g; complement := false |},
   {| num_nodes := num_nodes g + 1; inputs := inputs g ++ [num_nodes g];
      registers := registers g; gates := gates g; outs := outs g;
      signal_names := signal_names g; output_names := output_names g |}).

Definition create_ro (g : t) : signal * t :=
  ({| index := num_nodes g; complement := false |},
   {| num_nodes := num_nodes g + 1; inputs := inputs g;
      registers := registers g ++ [num_nodes g]; gates := gates g; outs := outs g;
      signal_names := signal_names g; output_names := output_names g |}).

Definition create_po (s : signal) (g : t) : t :=
  {| num_nodes := num_nodes g; inputs := inputs g; registers := registers g;
     gates := gates g; outs := outs g ++ [po s];
     signal_names := signal_names g; output_names := output_names g |}.

Definition create_ri (s : signal) (reset : Z) (g : t) : t :=
  {| num_nodes := num_nodes g; inputs := inputs g; registers := registers g;
     gates := gates g; outs := outs g ++ [ri s reset];
     signal_names := signal_names g; output_names := output_names g |}.

Definition negate (s : signal) : signal :=
  {| index := index s; complement := negb (complement s) |}.

Definition create_not (s : signal) (g : t) : signal * t := (negate s, g).

Definition create_and (a b : signal) (g : t) : signal * t :=
  ({| index := num_nodes g; complement := false |},
   {| num_nodes := num_nodes g + 1; inputs := inputs g; registers := registers g;
      gates := gates g ++ [(num_nodes g, a, b)]; outs := outs g;
      signal_names := signal_names g; output_names := output_names g |}).

Definition has_name (s : signal) (g : t) : bool :=
  bool_decide (is_Some (signal_names g !! s)).

Definition set_name (s : signal) (name : string) (g : t) : t :=
  {| num_nodes := num_nodes g; inputs := inputs g; registers := registers g;
     gates := gates g; outs := outs g;
     signal_names := <[s := name]> (signal_names g);
     output_names := output_names g |}.

Definition has_output_name (i : N) (g : t) : bool :=
  bool_decide (is_Some (output_names g !! i)).

Definition set_output_name (i : N) (name : string) (g : t) : t :=
  {| num_nodes := num_nodes g; inputs := inputs g; registers := registers g;
     gates := gates g; outs := outs g;
     signal_names := signal_names g;
     output_names := <[i := name]> (output_names g) |}.

(** The fields in the order of the class: the two traits, then
    [get_constant] to [set_output_name]. *)
#[global] Instance network : Network t signal :=
  @Build_Network t signal _ _ true true
    get_constant create_pi create_po create_ro create_ri create_not create_and
    has_name set_name has_output_name set_output_name.
End aig.

(** ** Vocabulary of the statements *)

(** The literal's node index is inside the table. *)
Definition in_table {A : Type} (sigs : list A) (lit : N) : bool :=
  bool_decide (N.to_nat (N.shiftr lit 1) < length sigs)%nat.

(** [s] is what the literal [lit] stands for, given the table: the entry at
    [lit >> 1], or a [create_not] of it when bit 0 of [lit] is set. *)
Definition resolves_to `{Network Ntk signal} (sigs : list signal) (lit : N) (s : signal) : Prop :=
  ∃ s0, sigs !! N.to_nat (N.shiftr lit 1) = Some s0
        ∧ if N.testbit lit 0 then ∃ ntk : Ntk, s = (create_not s0 ntk).1 else s = s0.

(** The same on the And-Inverter graph above, where negation is a function of
    the signal alone; the constant stands in for a missing entry. *)
Definition aig_resolved (sigs : list aig.signal) (lit : N) : aig.signal :=
  let s := default (aig.mk_signal 0 false) (sigs !! N.to_nat (N.shiftr lit 1)) in
  if N.testbit lit 0 then aig.negate s else s.

(** Pending records whose name is still the empty string. *)
Definition unnamed {A : Type} (l : list (A * string)) : Prop := Forall (λ x, x.2 = EmptyString) l.

(** [count] consecutive numbers from [start]. *)
Definition consecutive (start : N) (count : N) : list N :=
  (λ k, start + N.of_nat k) <$> seq 0 (N.to_nat count).

(** A non-inverted reference to a node. *)
Definition node (i : N) : aig.signal := aig.mk_signal i false.

(** *** Vocabulary of the further properties *)

(** A call on a [NameMap] that can change it: [insert], or the non-const
    [operator[]]. *)
Inductive name_map_call (signal : Type) : Type :=
| call_insert (s : signal) (name : string)
| call_index (s : signal).

Arguments call_insert {signal} s name.
Arguments call_index {signal} s.

Definition name_map_apply `{Countable signal} (m : NameMap.t signal)
    (c : name_map_call signal) : NameMap.t signal :=
  match c with
  | call_insert s name => NameMap.insert s name m
  | call_index s => (NameMap.index s m).2
  end.

Definition name_map_run `{Countable signal} (cs : list (name_map_call signal))
    (m : NameMap.t signal) : NameMap.t signal :=
  foldl name_map_apply m cs.

(** How many entries a callback pushes on the table when it returns, and how
    many pending outputs it adds. *)
Definition table_growth (e : event) : N :=
  match e with
  | header _ num_inputs num_latches _ _ => 1 + num_inputs + num_latches
  | and_gate _ _ _ => 1
  | _ => 0
  end.

Definition output_growth (e : event) : N :=
  match e with
  | output _ _ => 1
  | _ => 0
  end.

Definition total_growth (es : list event) : N :=
  foldr (λ e n, table_growth e + n) 0 es.

(** The index an AND event or an output event carries is the length of the
    table, or the number of pending outputs, at that event. *)
Definition index_ok (size nout : N) (e : event) : bool :=
  match e with
  | and_gate index _ _ => bool_decide (size = index)
  | output index _ => bool_decide (index = nout)
  | _ => true
  end.

Fixpoint indices_in_order (size nout : N) (es : list event) : bool :=
  match es with
  | [] => true
  | e :: es' =>
    index_ok size nout e
    && indices_in_order (size + table_growth e) (nout + output_growth e) es'
  end.

(** What an event reads from the table is inside it: both literals of an AND
    event, the entry a name event names; the counts of a header fit the 32-bit
    counters. *)
Definition reference_ok (size num_in : N) (e : event) : bool :=
  match e with
  | header _ num_inputs num_latches _ _ =>
    (num_inputs <? 2 ^ 32) && (num_latches <? 2 ^ 32)
  | input_name index _ => wrap32 (1 + index) <? size
  | latch_name index _ => wrap32 (1 + num_in + index) <? size
  | and_gate _ left_lit right_lit =>
    (N.shiftr left_lit 1 <? size) && (N.shiftr right_lit 1 <? size)
  | _ => true
  end.

Definition next_num_inputs (num_in : N) (e : event) : N :=
  match e with
  | header _ num_inputs _ _ _ => wrap32 num_inputs
  | _ => num_in
  end.

Fixpoint references_in_range (size num_in : N) (es : list event) : bool :=
  match es with
  | [] => true
  | e :: es' =>
    reference_ok size num_in e
    && references_in_range (size + table_growth e) (next_num_inputs num_in e) es'
  end.

(** The literals the destructor will resolve. *)
Definition pending_literal (e : event) : option N :=
  match e with
  | latch _ next _ => Some next
  | output _ lit => Some lit
  | _ => None
  end.

Definition pending_literals (es : list event) : list N := omap pending_literal es.

(** Fuel for the loops of the headers of a stream. *)
Definition header_fuel (es : list event) : nat :=
  foldr (λ e (n : nat),
           match e with
           | header _ num_inputs num_latches _ _ =>
             Nat.max (N.to_nat (N.max num_inputs num_latches)) n
           | _ => n
           end) 0%nat es.

(** Two outcomes of the same kind, with results related by [R]. *)
Definition outcome_rel {A B : Type} (R : A → B → Prop) (c1 : outcome A) (c2 : outcome B) : Prop :=
  match c1, c2 with
  | Done a, Done b => R a b
  | Aborted, Aborted => True
  | Undefined, Undefined => True
  | Timeout, Timeout => True
  | _, _ => False
  end.

(** The result of a run without the [NameMap]. *)
Definition network_of {Ntk M : Type} (c : outcome (Ntk * M)) : outcome Ntk :=
  res ← c; Done res.1.

(** Two readers, or two states of the destructor's loops, that differ in the
    [NameMap] at most. *)
Definition same_reader `{Network Ntk signal} (r1 r2 : aiger_reader.t Ntk signal) : Prop :=
  aiger_reader._ntk r1 = aiger_reader._ntk r2
  ∧ aiger_reader._num_inputs r1 = aiger_reader._num_inputs r2
  ∧ aiger_reader.outputs r1 = aiger_reader.outputs r2
  ∧ aiger_reader.signals r1 = aiger_reader.signals r2
  ∧ aiger_reader.latches r1 = aiger_reader.latches r2.

Definition same_finalizer `{Network Ntk signal}
    (f1 f2 : aiger_reader.finalizer Ntk signal) : Prop :=
  aiger_reader.f_ntk f1 = aiger_reader.f_ntk f2
  ∧ aiger_reader.output_idx f1 = aiger_reader.output_idx f2
  ∧ aiger_reader.latch_idx f1 = aiger_reader.latch_idx f2.

(** The signal a literal stands for when table entry [i] is node [i]: node
    [lit >> 1], complemented when bit 0 of [lit] is set. *)
Definition lit_signal (lit : N) : aig.signal :=
  aig.mk_signal (N.shiftr lit 1) (N.testbit lit 0).

(** The AND events of a stream as gates, numbered from [start]; its output
    events and latch events as output slots. *)
Fixpoint gates_of (start : N) (es : list event) : list (N * aig.signal * aig.signal) :=
  match es with
  | [] => []
  | and_gate _ left_lit right_lit :: es' =>
    (start, lit_signal left_lit, lit_signal right_lit) :: gates_of (start + 1) es'
  | _ :: es' => gates_of start es'
  end.

Definition output_literals (es : list event) : list N :=
  omap (λ e, match e with output _ lit => Some lit | _ => None end) es.

Definition latch_records (es : list event) : list (N * Z) :=
  omap (λ e, match e with
             | latch _ next reset => Some (next, aiger_reader.reset_code reset)
             | _ => None
             end) es.

Definition output_slots (es : list event) : list aig.slot :=
  (λ lit, aig.po (lit_signal lit)) <$> output_literals es.

Definition latch_slots (es : list event) : list aig.slot :=
  (λ l, aig.ri (lit_signal l.1) l.2) <$> latch_records es.

Definition no_header (es : list event) : bool :=
  forallb (λ e, match e with header _ _ _ _ _ => false | _ => true end) es.

(** Table entry [i] is node [i], for every node of the graph. *)
Definition table_is_nodes (r : aiger_reader.t aig.t aig.signal) : Prop :=
  aiger_reader.signals r
  = node <$> consecutive 0 (aig.num_nodes (aiger_reader._ntk r)).

(** * Properties *)

(** ** NameMap *)

Section NameMap_facts.
Context {signal : Type} `{Countable signal}.
Implicit Types (m : NameMap.t signal) (s : signal) (name : string).
Implicit Types (calls : list (signal * string)).

Lemma get_name_insert_eq s name m :
  NameMap.get_name s (NameMap.insert s name m)
  = Some (default [] (NameMap.get_name s m) ++ [name]).
Proof.
  unfold NameMap.get_name, NameMap.insert; simpl.
  destruct (NameMap._names m !! s) as [l|] eqn:E; simpl;
    by rewrite lookup_insert_eq.
Qed.

Lemma get_name_insert_ne s s' name m :
  s ≠ s' →
  NameMap.get_name s' (NameMap.insert s name m) = NameMap.get_name s' m.
Proof.
  intros Hne. unfold NameMap.get_name, NameMap.insert; simpl.
  destruct (NameMap._names m !! s); by rewrite lookup_insert_ne.
Qed.

Lemma reverse_insert_lookup s name name' m :
  NameMap._rev_names (NameMap.insert s name m) !! name'
  = match NameMap._rev_names m !! name' with
    | Some s0 => Some s0
    | None => if decide (name = name') then Some s else None
    end.
Proof.
  unfold NameMap.insert; simpl.
  destruct (decide (name = name')) as [->|Hne].
  - destruct (NameMap._rev_names m !! name') eqn:E; [done|].
    by rewrite lookup_insert_eq.
  - destruct (NameMap._rev_names m !! name) eqn:E.
    + by destruct (NameMap._rev_names m !! name').
    + rewrite lookup_insert_ne by done.
      by destruct (NameMap._rev_names m !! name').
Qed.

Lemma NameMap_insert_all_app calls1 calls2 m :
  NameMap.insert_all (calls1 ++ calls2) m
  = NameMap.insert_all calls2 (NameMap.insert_all calls1 m).
Proof.
  unfold NameMap.insert_all. by rewrite foldl_app.
Qed.

(** The reverse map after a run of calls: an entry that was there stays, and
    a free name gets the signal of the first call under it. *)
Lemma reverse_insert_all calls m name :
  NameMap._rev_names (NameMap.insert_all calls m) !! name
  = match NameMap._rev_names m !! name with
    | Some s0 => Some s0
    | None => NameMap.first_signal_named name calls
    end.
Proof.
  revert m. induction calls as [|[s n] calls IH]; intros m.
  - simpl. by destruct (NameMap._rev_names m !! name).
  - change (NameMap.insert_all ((s, n) :: calls) m)
      with (NameMap.insert_all calls (NameMap.insert s n m)).
    rewrite IH, reverse_insert_lookup.
    unfold NameMap.first_signal_named.
    destruct (NameMap._rev_names m !! name) as [s0|] eqn:E; [done|].
    rewrite filter_cons; simpl.
    destruct (decide (n = name)) as [->|Hne]; simpl; done.
Qed.

(** The forward map after a run of calls: the names a signal had, then the
    names of the calls for it, in call order. *)
Lemma forward_insert_all calls m s :
  default [] (NameMap.get_name s (NameMap.insert_all calls m))
  = default [] (NameMap.get_name s m) ++ NameMap.names_given s calls.
Proof.
  revert m. induction calls as [|[s' n] calls IH]; intros m.
  - simpl. unfold NameMap.names_given. simpl. by rewrite app_nil_r.
  - change (NameMap.insert_all ((s', n) :: calls) m)
      with (NameMap.insert_all calls (NameMap.insert s' n m)).
    rewrite IH. unfold NameMap.names_given. rewrite filter_cons; simpl.
    destruct (decide (s' = s)) as [->|Hne]; simpl.
    + rewrite get_name_insert_eq; simpl. by rewrite <- app_assoc.
    + by rewrite get_name_insert_ne.
Qed.

Lemma forward_insert_all_is_Some calls m s :
  is_Some (NameMap.get_name s (NameMap.insert_all calls m))
  ↔ is_Some (NameMap.get_name s m) ∨ NameMap.names_given s calls ≠ [].
Proof.
  revert m. induction calls as [|[s' n] calls IH]; intros m.
  - simpl. unfold NameMap.names_given; simpl.
    split; [by left|intros [?|?]; done].
  - change (NameMap.insert_all ((s', n) :: calls) m)
      with (NameMap.insert_all calls (NameMap.insert s' n m)).
    rewrite IH. unfold NameMap.names_given. rewrite !filter_cons; simpl.
    destruct (decide (s' = s)) as [->|Hne]; simpl.
    + rewrite get_name_insert_eq. split; [intros _; by right|intros _; left; eauto].
    + by rewrite get_name_insert_ne.
Qed.

(** C8: [insert( s, n )] makes [n] one of the names [get_name( s )] returns:
    the list is the one [s] had (none when [s] was unknown) with [n] at its
    end; a second [insert( s, n' )] puts [n'] after [n] and keeps [n], for
    every [n'], a different name or the same one. *)
Theorem insert_extends_name_list s name name' m :
  NameMap.get_name s (NameMap.insert s name m)
  = Some (default [] (NameMap.get_name s m) ++ [name])
  ∧ NameMap.has_name s name (NameMap.insert s name m) = true
  ∧ NameMap.get_name s (NameMap.insert s name' (NameMap.insert s name m))
    = Some (default [] (NameMap.get_name s m) ++ [name; name'])
  ∧ NameMap.has_name s name (NameMap.insert s name' (NameMap.insert s name m)) = true
  ∧ NameMap.has_name s name' (NameMap.insert s name' (NameMap.insert s name m)) = true.
Proof.
  assert (Hhas : ∀ m' l n, NameMap.get_name s m' = Some l → n ∈ l →
                           NameMap.has_name s n m' = true).
  { intros m' l n E Hin. unfold NameMap.has_name.
    unfold NameMap.get_name in E. rewrite E. by apply bool_decide_eq_true. }
  pose proof (get_name_insert_eq s name m) as E1.
  pose proof (get_name_insert_eq s name' (NameMap.insert s name m)) as E2.
  rewrite E1 in E2; simpl in E2. rewrite <- app_assoc in E2; simpl in E2.
  split_and!; [done| |done| |].
  - eapply Hhas; [done|]. set_solver.
  - eapply Hhas; [done|]. set_solver.
  - eapply Hhas; [done|]. set_solver.
Qed.

(** C4, as the code has it: after any run of [insert] calls on a new
    [NameMap], the reverse map gives each name the signal of the FIRST call
    under that name (a later call under a taken name is reported and leaves
    the reverse map as it was), and the forward map gives each signal all the
    names of the calls for it, in call order. *)
Theorem insert_all_maps calls :
  (∀ name,
     NameMap.get_name_to_signal_mapping (NameMap.insert_all calls NameMap.empty) !! name
     = NameMap.first_signal_named name calls)
  ∧ (∀ s,
     NameMap.get_name s (NameMap.insert_all calls NameMap.empty)
     = match NameMap.names_given s calls with
       | [] => None
       | l => Some l
       end)
  ∧ (∀ s name,
     NameMap.get_name_to_signal_mapping
       (NameMap.insert s name (NameMap.insert_all calls NameMap.empty)) !! name
     = Some (default s (NameMap.first_signal_named name calls))
     ∧ NameMap.insert_warning name (NameMap.insert_all calls NameMap.empty)
       = (λ _, "[w] signal name `" +:+ name +:+ "` is used twice")
           <$> NameMap.first_signal_named name calls).
Proof.
  split_and!.
  - intros name. unfold NameMap.get_name_to_signal_mapping.
    rewrite reverse_insert_all. simpl. by rewrite lookup_empty.
  - intros s.
    pose proof (forward_insert_all calls NameMap.empty s) as E.
    pose proof (forward_insert_all_is_Some calls NameMap.empty s) as [E1 E2].
    unfold NameMap.get_name at 2 in E. simpl in E. rewrite lookup_empty in E.
    simpl in E.
    destruct (NameMap.names_given s calls) as [|n l] eqn:En.
    + destruct (NameMap.get_name s (NameMap.insert_all calls NameMap.empty)) eqn:Eg;
        [|done].
      destruct E1 as [[? E1]|E1]; [eauto| |done].
      unfold NameMap.get_name in E1; simpl in E1. by rewrite lookup_empty in E1.
    + destruct E2 as [l' E2]; [by right|]. rewrite E2 in E |- *. simpl in E.
      by rewrite E.
  - intros s name.
    assert (NameMap._rev_names (NameMap.insert_all calls NameMap.empty) !! name
            = NameMap.first_signal_named name calls) as E.
    { rewrite reverse_insert_all. simpl. by rewrite lookup_empty. }
    split.
    + unfold NameMap.get_name_to_signal_mapping.
      rewrite reverse_insert_lookup, E.
      destruct (NameMap.first_signal_named name calls); simpl; [done|].
      by rewrite decide_True.
    + unfold NameMap.insert_warning. rewrite E.
      by destruct (NameMap.first_signal_named name calls).
Qed.
End NameMap_facts.

(** C4, as stated, fails: two calls give the name ["x"] first to signal 1,
    then to signal 2; the last call under ["x"] has signal 2, and the reverse
    map still gives signal 1. *)
Lemma reverse_map_keeps_first_signal :
  let calls := [(1, "x"); (2, "x")] in
  let m := NameMap.insert_all calls NameMap.empty in
  NameMap.last_signal_named "x" calls = Some 2
  ∧ NameMap.get_name_to_signal_mapping m !! "x" = Some 1
  ∧ NameMap.get_name_to_signal_mapping m !! "x" ≠ NameMap.last_signal_named "x" calls.
Proof. vm_compute. split_and!; [done|done|discriminate]. Qed.

(** ** The reader, on any network *)

Lemma bind_Done {A B : Type} (a : A) (k : A → outcome B) : (Done a ≫= k) = k a.
Proof. reflexivity. Qed.

Lemma bind_is_Done {A B : Type} (c : outcome A) (k : A → outcome B) (b : B) :
  (c ≫= k) = Done b → ∃ a, c = Done a ∧ k a = Done b.
Proof. destruct c; simpl; intros E; try discriminate. eauto. Qed.

Lemma vector_at_in_table {A : Type} (sigs : list A) (lit : N) :
  in_table sigs lit = true →
  ∃ s, vector_at sigs (N.shiftr lit 1) = Done s
       ∧ sigs !! N.to_nat (N.shiftr lit 1) = Some s.
Proof.
  unfold in_table, vector_at. intros Hin%bool_decide_eq_true.
  destruct (lookup_lt_is_Some_2 sigs _ Hin) as [s E]. rewrite E. eauto.
Qed.

Lemma vector_at_not_in_table {A : Type} (sigs : list A) (lit : N) :
  in_table sigs lit = false → vector_at sigs (N.shiftr lit 1) = Undefined.
Proof.
  unfold in_table, vector_at. intros Hout%bool_decide_eq_false.
  rewrite lookup_ge_None_2; [done|lia].
Qed.

Lemma wrap32_small (n : N) : n < 2 ^ 32 → wrap32 n = n.
Proof. intros Hn. unfold wrap32. by apply N.mod_small. Qed.

Section reader_facts.
Context {Ntk signal : Type} `{Network Ntk signal}.
Import aiger_reader.
Implicit Types (r : aiger_reader.t Ntk signal) (f : finalizer Ntk signal).
Implicit Types (sigs : list signal) (ntk : Ntk) (s : signal).

Lemma for_each_app {A S : Type} (body : S → A → outcome S) (l1 l2 : list A) (st : S) :
  for_each body (l1 ++ l2) st = (for_each body l1 st ≫= for_each body l2).
Proof.
  revert st. induction l1 as [|a l1 IH]; intros st; simpl; [done|].
  destruct (body st a); simpl; auto.
Qed.

Lemma resolve_not_in_table sigs lit ntk :
  in_table sigs lit = false → resolve sigs lit ntk = Undefined.
Proof. intros Hout. unfold resolve. by rewrite vector_at_not_in_table. Qed.

Lemma resolve_in_table sigs lit ntk :
  in_table sigs lit = true →
  ∃ s ntk', resolve sigs lit ntk = Done (s, ntk') ∧ resolves_to sigs lit s.
Proof.
  intros Hin. destruct (vector_at_in_table _ _ Hin) as (s0 & E & El).
  unfold resolve, resolves_to. rewrite E; simpl.
  destruct (N.testbit lit 0) eqn:Eb.
  - destruct (create_not s0 ntk) as [s' ntk'] eqn:En.
    exists s', ntk'. split; [done|]. exists s0. split; [done|].
    exists ntk. by rewrite En.
  - exists s0, ntk. split; [done|]. by exists s0.
Qed.

Lemma resolve_Done sigs lit ntk s ntk' :
  resolve sigs lit ntk = Done (s, ntk') →
  in_table sigs lit = true ∧ resolves_to sigs lit s.
Proof.
  intros E. destruct (in_table sigs lit) eqn:Hin.
  - split; [done|]. destruct (resolve_in_table sigs lit ntk Hin) as (s1 & ntk1 & E1 & Hr).
    congruence.
  - by rewrite resolve_not_in_table in E.
Qed.

(** *** on_and and its index *)

Lemma on_and_assertions index left_lit right_lit r :
  on_and true index left_lit right_lit r
  = if decide (N.of_nat (length (signals r)) = index)
    then on_and false index left_lit right_lit r
    else Aborted.
Proof.
  unfold on_and, assert; simpl.
  destruct (decide (N.of_nat (length (signals r)) = index)) as [E|E].
  - by rewrite bool_decide_eq_true_2.
  - by rewrite bool_decide_eq_false_2.
Qed.

Lemma on_and_Done assertions index left_lit right_lit r r' :
  on_and assertions index left_lit right_lit r = Done r' →
  ∃ g, signals r' = signals r ++ [g]
       ∧ outputs r' = outputs r ∧ latches r' = latches r
       ∧ _names r' = _names r ∧ _num_inputs r' = _num_inputs r.
Proof.
  unfold on_and. intros E.
  apply bind_is_Done in E as (_ & _ & E).
  apply bind_is_Done in E as ([s1 ntk1] & _ & E).
  apply bind_is_Done in E as ([s2 ntk2] & _ & E).
  destruct (create_and s1 s2 ntk2) as [g ntk3].
  injection E as <-. simpl. eauto 10.
Qed.

(** C3, as the code has it.  With assertions compiled in, an AND event whose
    index is not the length of the table ends in the failed [assert] (the
    process is aborted; no error reaches the caller), and an index that is
    the length is handled as without assertions; so an AND event that
    returns had the table's length as its index, and its conjunction is the
    one new entry, at that index.  With assertions compiled out the index is
    not read: every index gives the same result. *)
Theorem on_and_index_is_only_asserted index left_lit right_lit r :
  on_and true index left_lit right_lit r
  = (if decide (N.of_nat (length (signals r)) = index)
     then on_and false index left_lit right_lit r
     else Aborted)
  ∧ match on_and true index left_lit right_lit r with
    | Done r' =>
        index = N.of_nat (length (signals r))
        ∧ length (signals r') = S (length (signals r))
        ∧ take (length (signals r)) (signals r') = signals r
    | _ => True
    end
  ∧ ∀ index', on_and false index' left_lit right_lit r
              = on_and false index left_lit right_lit r.
Proof.
  split_and!.
  - apply on_and_assertions.
  - destruct (on_and true index left_lit right_lit r) as [r'| | |] eqn:E; [|done..].
    pose proof (on_and_assertions index left_lit right_lit r) as Ea.
    rewrite E in Ea.
    destruct (decide (N.of_nat (length (signals r)) = index)) as [Ei|Ei]; [|done].
    apply on_and_Done in E as (g & Es & _).
    rewrite Es, length_app, take_app_length. simpl. split_and!; [done|lia|done].
  - intros index'. reflexivity.
Qed.

(** *** Literals outside the table *)

Lemma on_and_not_in_table assertions index left_lit right_lit r :
  in_table (signals r) left_lit && in_table (signals r) right_lit = false →
  on_and assertions index left_lit right_lit r
  = (_ ← assert assertions (bool_decide (N.of_nat (length (signals r)) = index));
     Undefined).
Proof.
  intros Hout. unfold on_and.
  destruct (assert assertions _); simpl; try done.
  destruct (in_table (signals r) left_lit) eqn:Hl.
  - simpl in Hout.
    destruct (resolve_in_table (signals r) left_lit (_ntk r) Hl) as (s & ntk' & E & _).
    rewrite E; simpl. by rewrite resolve_not_in_table.
  - by rewrite resolve_not_in_table.
Qed.

Lemma on_and_in_table index left_lit right_lit r :
  in_table (signals r) left_lit && in_table (signals r) right_lit = true →
  ∃ r', on_and false index left_lit right_lit r = Done r'.
Proof.
  intros [Hl Hr]%andb_prop. unfold on_and; simpl.
  destruct (resolve_in_table (signals r) left_lit (_ntk r) Hl) as (s1 & ntk1 & E1 & _).
  rewrite E1; simpl.
  destruct (resolve_in_table (signals r) right_lit ntk1 Hr) as (s2 & ntk2 & E2 & _).
  rewrite E2; simpl.
  destruct (create_and s1 s2 ntk2). eauto.
Qed.

Lemma output_step_outcome sigs f out :
  if in_table sigs out.1
  then ∃ f', output_step sigs f out = Done f'
             ∧ output_idx f' = wrap32 (output_idx f + 1)
             ∧ latch_idx f' = latch_idx f
  else output_step sigs f out = Undefined.
Proof.
  unfold output_step. destruct (in_table sigs out.1) eqn:Hin.
  - destruct (resolve_in_table sigs out.1 (f_ntk f) Hin) as (s & ntk' & E & _).
    rewrite E; simpl. eauto.
  - by rewrite resolve_not_in_table.
Qed.

Lemma latch_step_outcome sigs f (l : N * Z * string) :
  if in_table sigs l.1.1
  then ∃ f', latch_step sigs f l = Done f'
             ∧ output_idx f' = wrap32 (output_idx f + 1)
             ∧ latch_idx f' = wrap32 (latch_idx f + 1)
  else latch_step sigs f l = Undefined.
Proof.
  unfold latch_step. destruct (in_table sigs l.1.1) eqn:Hin.
  - destruct (resolve_in_table sigs l.1.1 (f_ntk f) Hin) as (s & ntk' & E & _).
    rewrite E; simpl. eauto.
  - by rewrite resolve_not_in_table.
Qed.

Lemma for_each_output_step_outcome sigs (outs : list (N * string)) f :
  if forallb (in_table sigs) outs.*1
  then ∃ f', for_each (output_step sigs) outs f = Done f'
  else for_each (output_step sigs) outs f = Undefined.
Proof.
  revert f. induction outs as [|out outs IH]; intros f; simpl; [eauto|].
  pose proof (output_step_outcome sigs f out) as Hs.
  destruct (in_table sigs out.1); simpl.
  - destruct Hs as (f' & -> & _); simpl. apply IH.
  - by rewrite Hs.
Qed.

Lemma for_each_latch_step_outcome sigs (ls : list (N * Z * string)) f :
  if forallb (in_table sigs) ls.*1.*1
  then ∃ f', for_each (latch_step sigs) ls f = Done f'
  else for_each (latch_step sigs) ls f = Undefined.
Proof.
  revert f. induction ls as [|l ls IH]; intros f; simpl; [eauto|].
  pose proof (latch_step_outcome sigs f l) as Hs.
  destruct (in_table sigs l.1.1); simpl.
  - destruct Hs as (f' & -> & _); simpl. apply IH.
  - by rewrite Hs.
Qed.

Lemma destructor_outcome r :
  if forallb (in_table (signals r)) (outputs r).*1
     && forallb (in_table (signals r)) (latches r).*1.*1
  then ∃ res, destructor r = Done res
  else destructor r = Undefined.
Proof.
  unfold destructor, finalize_outputs, finalize_latches.
  match goal with |- context [for_each (output_step _) _ ?f0] =>
    pose proof (for_each_output_step_outcome (signals r) (outputs r) f0) as Ho end.
  destruct (forallb (in_table (signals r)) (outputs r).*1); simpl.
  - destruct Ho as (f1 & ->); simpl.
    pose proof (for_each_latch_step_outcome (signals r) (latches r) f1) as Hl.
    destruct (forallb (in_table (signals r)) (latches r).*1.*1).
    + destruct Hl as (f2 & ->); simpl. eauto.
    + by rewrite Hl.
  - by rewrite Ho.
Qed.

(** C5, as the code has it.  No callback compares a literal with the table.
    [on_and] reads [signals[lit >> 1]] for both literals right after its
    assertion on the index: with both node indices inside the table it
    returns, with one outside the read is past the end of the vector
    (undefined behaviour), unless the assertion on the index has failed
    before.  [on_output] stores any literal; the destructor reads the table
    for every stored output and latch literal, and with one node index
    outside the table that read is past the end.  No error is raised in
    either place. *)
Theorem out_of_range_literal_is_read_unchecked assertions index left_lit right_lit r :
  (if in_table (signals r) left_lit && in_table (signals r) right_lit
   then ∃ r', on_and false index left_lit right_lit r = Done r'
   else on_and assertions index left_lit right_lit r
        = if assertions && negb (bool_decide (N.of_nat (length (signals r)) = index))
          then Aborted else Undefined)
  ∧ (∀ lit, ∃ r', on_output false index lit r = Done r'
                  ∧ outputs r' = outputs r ++ [(lit, EmptyString)]
                  ∧ signals r' = signals r)
  ∧ (if forallb (in_table (signals r)) (outputs r).*1
        && forallb (in_table (signals r)) (latches r).*1.*1
     then ∃ res, destructor r = Done res
     else destructor r = Undefined).
Proof.
  split_and!.
  - destruct (in_table (signals r) left_lit && in_table (signals r) right_lit) eqn:Hin.
    + by apply on_and_in_table.
    + rewrite on_and_not_in_table by done. unfold assert.
      by destruct (assertions && negb _).
  - intros lit. unfold on_output; simpl. eauto.
  - apply destructor_outcome.
Qed.

(** *** Polarity *)

Lemma shiftr_lxor_1 (lit : N) : N.shiftr (N.lxor lit 1) 1 = N.shiftr lit 1.
Proof. rewrite N.shiftr_lxor. change (N.shiftr 1 1) with 0. apply N.lxor_0_r. Qed.

Lemma testbit_lxor_1 (lit : N) : N.testbit (N.lxor lit 1) 0 = negb (N.testbit lit 0).
Proof.
  rewrite N.lxor_spec. change (N.testbit 1 0) with true.
  by destruct (N.testbit lit 0).
Qed.

(** On a network whose negation undoes itself, resolving [lit] and then
    negating is resolving [lit ^ 1]: same outcome, same signal, same
    network. *)
Lemma resolve_then_negate sigs lit ntk :
  in_table sigs lit = true →
  (∀ s ntk0, create_not (create_not s ntk0).1 (create_not s ntk0).2 = (s, ntk0)) →
  ('(s, ntk1) ← resolve sigs lit ntk; Done (create_not s ntk1))
  = resolve sigs (N.lxor lit 1) ntk.
Proof.
  intros Hin Hinv. destruct (vector_at_in_table _ _ Hin) as (s0 & E & _).
  unfold resolve. rewrite shiftr_lxor_1, testbit_lxor_1, E; simpl.
  destruct (N.testbit lit 0); simpl; [|done].
  specialize (Hinv s0 ntk). destruct (create_not s0 ntk) as [s1 ntk1]; simpl in *.
  by rewrite Hinv.
Qed.

(** *** Latches *)

(** Destroying the reader [on_latch] leaves does what destroying the old one
    does and then, last, one [latch_step] for the new record. *)
Lemma on_latch_then_destructor index next reset r :
  ∃ r', on_latch index next reset r = Done r'
    ∧ _ntk r' = _ntk r ∧ signals r' = signals r ∧ outputs r' = outputs r
    ∧ _num_inputs r' = _num_inputs r ∧ _names r' = _names r
    ∧ latches r' = latches r ++ [(next, reset_code reset, EmptyString)]
    ∧ destructor r'
      = (f1 ← finalize_outputs r;
         f2 ← finalize_latches r f1;
         f3 ← latch_step (signals r) f2 (next, reset_code reset, EmptyString);
         Done (f_ntk f3, f_names f3))
    ∧ ∀ f, latch_step (signals r) f (next, reset_code reset, EmptyString)
           = ('(s, ntk1) ← resolve (signals r) next (f_ntk f);
              Done {| f_ntk := default_output_name (output_idx f)
                                 ("li" +:+ to_string (latch_idx f))
                                 (create_ri s (reset_code reset) ntk1);
                      f_names := NameMap.insert s "_next" <$> f_names f;
                      output_idx := wrap32 (output_idx f + 1);
                      latch_idx := wrap32 (latch_idx f + 1) |}).
Proof.
  eexists. split; [reflexivity|]. simpl. split_and!; try done.
  unfold destructor, finalize_outputs, finalize_latches; simpl.
  destruct (for_each (output_step (signals r)) (outputs r) _) as [f1| | |]; simpl; try done.
  rewrite for_each_app.
  destruct (for_each (latch_step (signals r)) (latches r) f1) as [f2| | |]; simpl; try done.
  by destruct (latch_step (signals r) f2 _).
Qed.

(** *** What the callbacks leave in the buffers *)

(** More fuel does not change what a loop of [on_header] returns. *)
Lemma header_inputs_more_fuel fuel k i n sigs ntk res :
  header_inputs fuel i n sigs ntk = Done res →
  header_inputs (fuel + k) i n sigs ntk = Done res.
Proof.
  revert i sigs ntk. induction fuel as [|fuel IH]; intros i sigs ntk; simpl.
  - destruct (i <? n) eqn:E; [done|]. intros <-. destruct k; simpl; by rewrite E.
  - destruct (i <? n); [|done]. destruct (create_pi ntk) as [s ntk1]. apply IH.
Qed.

Lemma header_latches_more_fuel fuel k i n sigs ntk res :
  header_latches fuel i n sigs ntk = Done res →
  header_latches (fuel + k) i n sigs ntk = Done res.
Proof.
  revert i sigs ntk. induction fuel as [|fuel IH]; intros i sigs ntk; simpl.
  - destruct (i <? n) eqn:E; [done|]. intros <-. destruct k; simpl; by rewrite E.
  - destruct (i <? n); [|done]. destruct (create_ro ntk) as [s ntk1]. apply IH.
Qed.

Lemma wrap32_lt (n : N) : wrap32 n < 2 ^ 32.
Proof. unfold wrap32. by apply N.mod_lt. Qed.

(** A bound that the 32-bit counter cannot reach: the loop does not end,
    whatever the fuel. *)
Lemma header_inputs_overflow fuel i n sigs ntk :
  2 ^ 32 ≤ n → i < 2 ^ 32 → header_inputs fuel i n sigs ntk = Timeout.
Proof.
  intros Hn. revert i sigs ntk. induction fuel as [|fuel IH]; intros i sigs ntk Hi; simpl.
  - by rewrite (proj2 (N.ltb_lt i n)) by lia.
  - rewrite (proj2 (N.ltb_lt i n)) by lia.
    destruct (create_pi ntk) as [s ntk1]. apply IH, wrap32_lt.
Qed.

Lemma header_latches_overflow fuel i n sigs ntk :
  2 ^ 32 ≤ n → i < 2 ^ 32 → header_latches fuel i n sigs ntk = Timeout.
Proof.
  intros Hn. revert i sigs ntk. induction fuel as [|fuel IH]; intros i sigs ntk Hi; simpl.
  - by rewrite (proj2 (N.ltb_lt i n)) by lia.
  - rewrite (proj2 (N.ltb_lt i n)) by lia.
    destruct (create_ro ntk) as [s ntk1]. apply IH, wrap32_lt.
Qed.

(** Within the counter's range a loop of [on_header] that returns has pushed
    one signal per count. *)
Lemma header_inputs_pushed fuel i n sigs ntk res :
  i ≤ n → n < 2 ^ 32 → header_inputs fuel i n sigs ntk = Done res →
  ∃ pis, res.1 = sigs ++ pis ∧ length pis = N.to_nat (n - i).
Proof.
  revert i sigs ntk. induction fuel as [|fuel IH]; intros i sigs ntk Hle Hmax; simpl.
  - destruct (i <? n) eqn:Hlt; [done|]. apply N.ltb_ge in Hlt. intros [= <-].
    exists []. rewrite app_nil_r. split; [done|simpl; lia].
  - destruct (i <? n) eqn:Hlt.
    + apply N.ltb_lt in Hlt. destruct (create_pi ntk) as [s ntk1].
      rewrite (wrap32_small (i + 1)) by lia. intros E.
      apply IH in E as (pis & -> & Hlen); [|lia|done].
      exists (s :: pis). rewrite <- app_assoc. split; [done|simpl; lia].
    + apply N.ltb_ge in Hlt. intros [= <-].
      exists []. rewrite app_nil_r. split; [done|simpl; lia].
Qed.

Lemma header_latches_pushed fuel i n sigs ntk res :
  i ≤ n → n < 2 ^ 32 → header_latches fuel i n sigs ntk = Done res →
  ∃ ros, res.1 = sigs ++ ros ∧ length ros = N.to_nat (n - i).
Proof.
  revert i sigs ntk. induction fuel as [|fuel IH]; intros i sigs ntk Hle Hmax; simpl.
  - destruct (i <? n) eqn:Hlt; [done|]. apply N.ltb_ge in Hlt. intros [= <-].
    exists []. rewrite app_nil_r. split; [done|simpl; lia].
  - destruct (i <? n) eqn:Hlt.
    + apply N.ltb_lt in Hlt. destruct (create_ro ntk) as [s ntk1].
      rewrite (wrap32_small (i + 1)) by lia. intros E.
      apply IH in E as (ros & -> & Hlen); [|lia|done].
      exists (s :: ros). rewrite <- app_assoc. split; [done|simpl; lia].
    + apply N.ltb_ge in Hlt. intros [= <-].
      exists []. rewrite app_nil_r. split; [done|simpl; lia].
Qed.

(** On any network: when [on_header] has returned, the table has got the
    constant false, then one signal per input, then one per latch. *)
Lemma on_header_table fuel m num_inputs num_latches o a r r' :
  on_header fuel m num_inputs num_latches o a r = Done r' →
  num_inputs < 2 ^ 32 ∧ num_latches < 2 ^ 32
  ∧ ∃ pis ros,
      signals r' = signals r ++ get_constant false (_ntk r) :: pis ++ ros
      ∧ length pis = N.to_nat num_inputs
      ∧ length ros = N.to_nat num_latches.
Proof.
  unfold on_header. intros E.
  apply bind_is_Done in E as ([sigs1 ntk1] & E1 & E).
  apply bind_is_Done in E as ([sigs2 ntk2] & E2 & [= <-]). simpl.
  assert (num_inputs < 2 ^ 32) as Hi.
  { destruct (N.lt_ge_cases num_inputs (2 ^ 32)) as [|Hge]; [done|].
    by rewrite header_inputs_overflow in E1. }
  assert (num_latches < 2 ^ 32) as Hl.
  { destruct (N.lt_ge_cases num_latches (2 ^ 32)) as [|Hge]; [done|].
    by rewrite header_latches_overflow in E2. }
  apply header_inputs_pushed in E1 as (pis & E1 & Hpis); [|lia|done].
  apply header_latches_pushed in E2 as (ros & E2 & Hros); [|lia|done].
  simpl in E1, E2. subst sigs1 sigs2.
  split_and!; [done..|]. exists pis, ros.
  rewrite <- !app_assoc. simpl. split_and!; [done|lia|lia].
Qed.

Lemma on_header_Done fuel m i l o a r r' :
  on_header fuel m i l o a r = Done r' →
  outputs r' = outputs r ∧ latches r' = latches r ∧ _names r' = _names r.
Proof.
  unfold on_header. intros E.
  apply bind_is_Done in E as ([sigs1 ntk1] & _ & E).
  apply bind_is_Done in E as ([sigs2 ntk2] & _ & E).
  by injection E as <-.
Qed.

Lemma deliver_pending fuel assertions e r r' :
  deliver fuel assertions e r = Done r' →
  _names r' = _names r
  ∧ (∃ more, outputs r' = outputs r ++ more ∧ unnamed more)
  ∧ (∃ more, latches r' = latches r ++ more ∧ unnamed more).
Proof.
  assert (Hsame : outputs r' = outputs r → latches r' = latches r →
                  (∃ more, outputs r' = outputs r ++ more ∧ unnamed more)
                  ∧ (∃ more, latches r' = latches r ++ more ∧ unnamed more)).
  { intros -> ->. split; exists []; rewrite app_nil_r; (split; [done|constructor]). }
  destruct e; simpl; intros E.
  - apply on_header_Done in E as (Eo & El & En). auto.
  - unfold on_input_name in E. destruct has_set_name_v.
    + apply bind_is_Done in E as (s & _ & [= <-]). simpl. auto.
    + injection E as <-. auto.
  - unfold on_output_name in E. destruct has_set_output_name_v; injection E as <-; simpl; auto.
  - unfold on_latch_name in E. destruct has_set_name_v.
    + apply bind_is_Done in E as (s & _ & [= <-]). simpl. auto.
    + injection E as <-. auto.
  - apply on_and_Done in E as (g & _ & Eo & El & En & _). auto.
  - injection E as <-. simpl. split_and!; [done| |].
    + exists []. rewrite app_nil_r. split; [done|constructor].
    + eexists. split; [done|]. by repeat constructor.
  - unfold on_output in E. apply bind_is_Done in E as (_ & _ & [= <-]). simpl.
    split_and!; [done| |].
    + eexists. split; [done|]. by repeat constructor.
    + exists []. rewrite app_nil_r. split; [done|constructor].
Qed.

Lemma run_events_pending fuel assertions es r r' :
  run_events fuel assertions es r = Done r' →
  _names r' = _names r
  ∧ (∃ more, outputs r' = outputs r ++ more ∧ unnamed more)
  ∧ (∃ more, latches r' = latches r ++ more ∧ unnamed more).
Proof.
  unfold run_events. revert r. induction es as [|e es IH]; intros r; simpl.
  - intros [= <-].
    split_and!; [done|exists []|exists []]; rewrite app_nil_r; (split; [done|constructor]).
  - intros E. apply bind_is_Done in E as (r1 & E1 & E).
    apply deliver_pending in E1 as (En1 & (mo1 & Eo1 & Ho1) & (ml1 & El1 & Hl1)).
    apply IH in E as (En & (mo & Eo & Ho) & (ml & El & Hl)).
    split_and!; [congruence| |].
    + exists (mo1 ++ mo). rewrite Eo, Eo1, <- app_assoc. split; [done|].
      unfold unnamed in *. by apply Forall_app.
    + exists (ml1 ++ ml). rewrite El, El1, <- app_assoc. split; [done|].
      unfold unnamed in *. by apply Forall_app.
Qed.

(** *** The names the destructor inserts *)

Lemma for_each_output_step_names sigs (outs : list (N * string)) f f' :
  for_each (output_step sigs) outs f = Done f' →
  ∃ so, Forall2 (λ out s, resolves_to sigs out.1 s) outs so
        ∧ f_names f' = NameMap.insert_all (zip so outs.*2) <$> f_names f.
Proof.
  revert f. induction outs as [|out outs IH]; intros f; simpl.
  - intros [= <-]. exists []. split; [constructor|]. by destruct (f_names _).
  - intros E. apply bind_is_Done in E as (f1 & E1 & E).
    unfold output_step in E1. apply bind_is_Done in E1 as ([s ntk1] & Er & [= <-]).
    apply resolve_Done in Er as [_ Hr].
    apply IH in E as (so & Hso & ->). simpl.
    exists (s :: so). split; [by constructor|]. by destruct (f_names f).
Qed.

Lemma for_each_latch_step_names sigs (ls : list (N * Z * string)) f f' :
  for_each (latch_step sigs) ls f = Done f' →
  ∃ sl, Forall2 (λ l s, resolves_to sigs l.1.1 s) ls sl
        ∧ f_names f'
          = NameMap.insert_all (zip sl ((λ l, l.2 +:+ "_next") <$> ls)) <$> f_names f.
Proof.
  revert f. induction ls as [|l ls IH]; intros f; simpl.
  - intros [= <-]. exists []. split; [constructor|]. by destruct (f_names _).
  - intros E. apply bind_is_Done in E as (f1 & E1 & E).
    unfold latch_step in E1. apply bind_is_Done in E1 as ([s ntk1] & Er & [= <-]).
    apply resolve_Done in Er as [_ Hr].
    apply IH in E as (sl & Hsl & ->). simpl.
    exists (s :: sl). split; [by constructor|]. by destruct (f_names f).
Qed.

Lemma zip_unnamed {A B : Type} (g : B → string) (name : string) (l : list B) (sl : list A) :
  Forall (λ x, g x = name) l → length sl = length l →
  zip sl (g <$> l) = (λ s : A, (s, name)) <$> sl.
Proof.
  intros Hl. revert sl. induction Hl as [|x l Hx Hl IH]; intros [|s sl]; simpl; try done.
  intros [= Hlen]. by rewrite Hx, IH.
Qed.

(** The [NameMap] a decode leaves, in terms of the pending records of the
    reader the events have left. *)
Lemma decode_names_of_pending fuel assertions es ntk m ntk' names' :
  decode fuel assertions es ntk (Some m) = Done (ntk', names') →
  ∃ r so sl,
    run_events fuel assertions es (new ntk (Some m)) = Done r
    ∧ Forall (λ l, l.2 = EmptyString ∧ l.2 +:+ "_next" = "_next") (latches r)
    ∧ Forall2 (λ out s, resolves_to (signals r) out.1 s) (outputs r) so
    ∧ Forall2 (λ l s, resolves_to (signals r) l.1.1 s) (latches r) sl
    ∧ names' = Some (NameMap.insert_all
                       (((λ s, (s, EmptyString)) <$> so) ++ ((λ s, (s, "_next")) <$> sl)) m).
Proof.
  unfold decode. intros E. apply bind_is_Done in E as (r & Er & E).
  pose proof (run_events_pending _ _ _ _ _ Er) as (En & (mo & Eo & Ho) & (ml & El & Hl)).
  simpl in En, Eo, El.
  unfold destructor in E.
  apply bind_is_Done in E as (f1 & E1 & E).
  apply bind_is_Done in E as (f2 & E2 & [= <- <-]).
  apply for_each_output_step_names in E1 as (so & Hso & En1).
  apply for_each_latch_step_names in E2 as (sl & Hsl & En2).
  exists r, so, sl. split_and!; try done.
  - rewrite El. eapply Forall_impl; [exact Hl|]. intros l ->. done.
  - rewrite En2, En1. simpl. rewrite En. simpl. f_equal.
    rewrite NameMap_insert_all_app. f_equal.
    + apply zip_unnamed.
      * rewrite El. eapply Forall_impl; [exact Hl|]. by intros l ->.
      * by apply Forall2_length in Hsl.
    + f_equal. apply zip_unnamed; [by rewrite Eo|].
      by apply Forall2_length in Hso.
Qed.
End reader_facts.

(** ** The reader, on the And-Inverter graph *)

Section aig_facts.
Import aiger_reader.
Implicit Types (g : aig.t) (sigs : list aig.signal).
Implicit Types (r : aiger_reader.t aig.t aig.signal).
Implicit Types (f : finalizer aig.t aig.signal).

Lemma consecutive_0 start : consecutive start 0 = [].
Proof. reflexivity. Qed.

Lemma consecutive_first start count :
  0 < count → consecutive start count = start :: consecutive (start + 1) (count - 1).
Proof.
  intros Hpos. unfold consecutive.
  replace (N.to_nat count) with (S (N.to_nat (count - 1))) by lia.
  simpl. f_equal; [lia|].
  rewrite <- fmap_S_seq, <- list_fmap_compose.
  apply list_fmap_ext. intros _ k _. simpl. lia.
Qed.

Lemma length_consecutive start count : length (consecutive start count) = N.to_nat count.
Proof. unfold consecutive. by rewrite length_fmap, length_seq. Qed.

(** The first loop of [on_header]: the graph gets [num_inputs - i] new nodes,
    all primary inputs, in order; only names change besides. *)
Lemma aig_header_inputs fuel i num_inputs sigs g :
  i ≤ num_inputs → num_inputs < 2 ^ 32 → (N.to_nat (num_inputs - i) ≤ fuel)%nat →
  ∃ g', header_inputs fuel i num_inputs sigs g
        = Done (sigs ++ (node <$> consecutive (aig.num_nodes g) (num_inputs - i)), g')
    ∧ aig.num_nodes g' = aig.num_nodes g + (num_inputs - i)
    ∧ aig.inputs g' = aig.inputs g ++ consecutive (aig.num_nodes g) (num_inputs - i)
    ∧ aig.registers g' = aig.registers g
    ∧ aig.gates g' = aig.gates g
    ∧ aig.outs g' = aig.outs g
    ∧ aig.output_names g' = aig.output_names g.
Proof.
  revert i sigs g. induction fuel as [|fuel IH]; intros i sigs g Hle Hmax Hfuel.
  - assert (i = num_inputs) as -> by lia.
    simpl. rewrite N.ltb_irrefl, N.sub_diag, consecutive_0. simpl.
    rewrite app_nil_r. exists g. split_and!; try done; [lia|by rewrite app_nil_r].
  - simpl. destruct (i <? num_inputs) eqn:Hlt.
    + apply N.ltb_lt in Hlt.
      rewrite (wrap32_small (i + 1)) by lia.
      set (g2 := if aig.has_name _ _ then _ else _).
      destruct (IH (i + 1) (sigs ++ [node (aig.num_nodes g)]) g2)
        as (g' & E & En & Ei & Er & Eg & Eo & Eon); [lia|done|lia|].
      assert (aig.num_nodes g2 = aig.num_nodes g + 1
              ∧ aig.inputs g2 = aig.inputs g ++ [aig.num_nodes g]
              ∧ aig.registers g2 = aig.registers g
              ∧ aig.gates g2 = aig.gates g
              ∧ aig.outs g2 = aig.outs g
              ∧ aig.output_names g2 = aig.output_names g)
        as (En2 & Ei2 & Er2 & Eg2 & Eo2 & Eon2).
      { subst g2. by destruct (aig.has_name _ _). }
      exists g'. rewrite (consecutive_first _ (num_inputs - i)) by lia.
      replace (num_inputs - i - 1) with (num_inputs - (i + 1)) by lia.
      change (aig.mk_signal (aig.num_nodes g) false) with (node (aig.num_nodes g)).
      rewrite E, En, Ei, Er, Eg, Eo, Eon, En2, Ei2, Er2, Eg2, Eo2, Eon2.
      rewrite fmap_cons, <- !app_assoc. simpl.
      split_and!; try done. lia.
    + apply N.ltb_ge in Hlt. assert (i = num_inputs) as -> by lia.
      rewrite N.sub_diag, consecutive_0. simpl. rewrite app_nil_r.
      exists g. split_and!; try done; [lia|by rewrite app_nil_r].
Qed.

(** The second loop: [num_latches - i] new nodes, all register outputs. *)
Lemma aig_header_latches fuel i num_latches sigs g :
  i ≤ num_latches → num_latches < 2 ^ 32 → (N.to_nat (num_latches - i) ≤ fuel)%nat →
  ∃ g', header_latches fuel i num_latches sigs g
        = Done (sigs ++ (node <$> consecutive (aig.num_nodes g) (num_latches - i)), g')
    ∧ aig.num_nodes g' = aig.num_nodes g + (num_latches - i)
    ∧ aig.inputs g' = aig.inputs g
    ∧ aig.registers g' = aig.registers g ++ consecutive (aig.num_nodes g) (num_latches - i)
    ∧ aig.gates g' = aig.gates g
    ∧ aig.outs g' = aig.outs g
    ∧ aig.output_names g' = aig.output_names g.
Proof.
  revert i sigs g. induction fuel as [|fuel IH]; intros i sigs g Hle Hmax Hfuel.
  - assert (i = num_latches) as -> by lia.
    simpl. rewrite N.ltb_irrefl, N.sub_diag, consecutive_0. simpl.
    rewrite app_nil_r. exists g. split_and!; try done; [lia|by rewrite app_nil_r].
  - simpl. destruct (i <? num_latches) eqn:Hlt.
    + apply N.ltb_lt in Hlt.
      rewrite (wrap32_small (i + 1)) by lia.
      match goal with |- context [header_latches fuel _ _ _ ?x] => set (g2 := x) end.
      destruct (IH (i + 1) (sigs ++ [node (aig.num_nodes g)]) g2)
        as (g' & E & En & Ei & Er & Eg & Eo & Eon); [lia|done|lia|].
      exists g'. rewrite (consecutive_first _ (num_latches - i)) by lia.
      replace (num_latches - i - 1) with (num_latches - (i + 1)) by lia.
      change (aig.mk_signal (aig.num_nodes g) false) with (node (aig.num_nodes g)).
      rewrite E, En, Ei, Er, Eg, Eo, Eon. subst g2. simpl.
      rewrite <- !app_assoc. simpl.
      split_and!; try done. lia.
    + apply N.ltb_ge in Hlt. assert (i = num_latches) as -> by lia.
      rewrite N.sub_diag, consecutive_0. simpl. rewrite app_nil_r.
      exists g. split_and!; try done; [lia|by rewrite app_nil_r].
Qed.

(** C2: for every header event given to a new reader, when [on_header] has
    returned the table has [1 + num_inputs + num_latches] entries: the constant
    false at index 0, then the [num_inputs] nodes the graph did not have
    before, which are now its primary inputs, in creation order, then the next
    [num_latches] new nodes, now its register outputs, in creation order.
    [on_header] returns for all counts its 32-bit loop counters can reach, and
    only for those. *)
Theorem on_header_layout fuel m num_inputs num_latches o a g names :
  (num_inputs < 2 ^ 32 → num_latches < 2 ^ 32 →
   (N.to_nat (N.max num_inputs num_latches) ≤ fuel)%nat →
   ∃ r', on_header fuel m num_inputs num_latches o a (new g names) = Done r')
  ∧ ∀ r', on_header fuel m num_inputs num_latches o a (new g names) = Done r' →
      length (signals r') = N.to_nat (1 + num_inputs + num_latches)
      ∧ signals r'
        = aig.get_constant false g
          :: (node <$> consecutive (aig.num_nodes g) num_inputs)
          ++ (node <$> consecutive (aig.num_nodes g + num_inputs) num_latches)
      ∧ aig.inputs (_ntk r') = aig.inputs g ++ consecutive (aig.num_nodes g) num_inputs
      ∧ aig.registers (_ntk r')
        = aig.registers g ++ consecutive (aig.num_nodes g + num_inputs) num_latches
      ∧ aig.num_nodes (_ntk r') = aig.num_nodes g + num_inputs + num_latches
      ∧ aig.gates (_ntk r') = aig.gates g
      ∧ aig.outs (_ntk r') = aig.outs g
      ∧ num_inputs < 2 ^ 32 ∧ num_latches < 2 ^ 32.
Proof.
  split.
  - intros Hi Hl Hfuel. unfold on_header. simpl.
    destruct (aig_header_inputs fuel 0 num_inputs [aig.get_constant false g] g)
      as (g1 & E1 & _); [lia|done|lia|].
    rewrite E1. simpl.
    match goal with |- context [header_latches fuel 0 num_latches ?x g1] =>
      destruct (aig_header_latches fuel 0 num_latches x g1) as (g2 & E2 & _);
        [lia|done|lia|]
    end.
    rewrite E2. simpl. eauto.
  - intros r' E. unfold on_header in E.
    apply bind_is_Done in E as ([sigs1 g1] & E1 & E).
    apply bind_is_Done in E as ([sigs2 g2] & E2 & [= <-]). simpl.
    assert (num_inputs < 2 ^ 32) as Hi.
    { destruct (N.lt_ge_cases num_inputs (2 ^ 32)) as [|Hge]; [done|].
      by rewrite header_inputs_overflow in E1. }
    assert (num_latches < 2 ^ 32) as Hl.
    { destruct (N.lt_ge_cases num_latches (2 ^ 32)) as [|Hge]; [done|].
      by rewrite header_latches_overflow in E2. }
    apply (header_inputs_more_fuel _ (N.to_nat num_inputs)) in E1.
    apply (header_latches_more_fuel _ (N.to_nat num_latches)) in E2.
    destruct (aig_header_inputs (fuel + N.to_nat num_inputs) 0 num_inputs
                [aig.get_constant false g] g)
      as (g1' & E1' & En1 & Ei1 & Er1 & Eg1 & Eo1 & _); [lia|done|lia|].
    pose proof (eq_trans (eq_sym E1) E1') as [= -> ->].
    destruct (aig_header_latches (fuel + N.to_nat num_latches) 0 num_latches
                ([aig.get_constant false g]
                   ++ (node <$> consecutive (aig.num_nodes g) (num_inputs - 0))) g1')
      as (g2' & E2' & En2 & Ei2 & Er2 & Eg2 & Eo2 & _); [lia|done|lia|].
    pose proof (eq_trans (eq_sym E2) E2') as [= -> ->].
    rewrite N.sub_0_r in *.
    rewrite En2, Ei2, Er2, Eg2, Eo2, En1, Ei1, Er1, Eg1, Eo1, ?N.sub_0_r.
    split_and!; try done.
    simpl. rewrite !length_app, !length_fmap, !length_consecutive. lia.
Qed.

(** C1: the stream of the scenario — a header with 2 inputs and 0 latches,
    the AND event (3, 2, 4), the output event (0, 6) — decoded into the empty
    graph, with or without assertions, returns; the graph then has the two
    primary inputs 1 and 2, no register, the one AND gate 3 with operands
    input 1 and input 2, both non-inverted, one output, the non-inverted gate
    3, and the name ["po0"] at output position 0. *)
Theorem decode_two_inputs_one_and fuel assertions m o a :
  ∃ g', decode (2 + fuel) assertions
          [header m 2 0 o a; and_gate 3 2 4; output 0 6] aig.empty None
        = Done (g', None)
    ∧ aig.inputs g' = [1; 2]
    ∧ aig.registers g' = []
    ∧ aig.gates g' = [(3, node 1, node 2)]
    ∧ aig.outs g' = [aig.po (node 3)]
    ∧ aig.output_names g' !! 0 = Some "po0"
    ∧ aig.num_nodes g' = 4.
Proof.
  destruct fuel, assertions; (eexists; split; [vm_compute; reflexivity|]);
    vm_compute; done.
Qed.

(** *** No callback creates an output *)

Lemma aig_resolve_Done sigs lit g s g' :
  resolve sigs lit g = Done (s, g') → g' = g.
Proof.
  unfold resolve. intros E. apply bind_is_Done in E as (s0 & _ & E).
  destruct (N.testbit lit 0); by injection E as _ <-.
Qed.

Lemma aig_header_inputs_outs fuel i n sigs g res :
  header_inputs fuel i n sigs g = Done res → aig.outs res.2 = aig.outs g.
Proof.
  revert i sigs g. induction fuel as [|fuel IH]; intros i sigs g; simpl.
  - destruct (i <? n); [done|]. by intros [= <-].
  - destruct (i <? n); [|by intros [= <-]].
    intros E. apply IH in E as ->. by destruct (aig.has_name _ _).
Qed.

Lemma aig_header_latches_outs fuel i n sigs g res :
  header_latches fuel i n sigs g = Done res → aig.outs res.2 = aig.outs g.
Proof.
  revert i sigs g. induction fuel as [|fuel IH]; intros i sigs g; simpl.
  - destruct (i <? n); [done|]. by intros [= <-].
  - destruct (i <? n); [|by intros [= <-]].
    intros E. by apply IH in E as ->.
Qed.

Lemma deliver_creates_no_output fuel assertions e r r' :
  deliver fuel assertions e r = Done r' → aig.outs (_ntk r') = aig.outs (_ntk r).
Proof.
  destruct e; simpl; intros E.
  - unfold on_header in E.
    apply bind_is_Done in E as ([sigs1 g1] & E1 & E).
    apply bind_is_Done in E as ([sigs2 g2] & E2 & [= <-]). simpl.
    apply aig_header_inputs_outs in E1. apply aig_header_latches_outs in E2.
    simpl in E1, E2. congruence.
  - unfold on_input_name in E. simpl in E.
    by apply bind_is_Done in E as (s & _ & [= <-]).
  - unfold on_output_name in E. simpl in E. by injection E as <-.
  - unfold on_latch_name in E. simpl in E.
    by apply bind_is_Done in E as (s & _ & [= <-]).
  - unfold on_and in E.
    apply bind_is_Done in E as (_ & _ & E).
    apply bind_is_Done in E as ([s1 g1] & E1 & E).
    apply bind_is_Done in E as ([s2 g2] & E2 & [= <-]). simpl.
    apply aig_resolve_Done in E1 as ->. by apply aig_resolve_Done in E2 as ->.
  - by injection E as <-.
  - unfold on_output in E. by apply bind_is_Done in E as (_ & _ & [= <-]).
Qed.

(** The outputs and register inputs of the graph are those it had before the
    first event, until the destructor runs. *)
Lemma callbacks_create_no_output fuel assertions es r r' :
  run_events fuel assertions es r = Done r' → aig.outs (_ntk r') = aig.outs (_ntk r).
Proof.
  unfold run_events. revert r. induction es as [|e es IH]; intros r; simpl.
  - by intros [= <-].
  - intros E. apply bind_is_Done in E as (r1 & E1 & E).
    apply deliver_creates_no_output in E1. apply IH in E. congruence.
Qed.

(** *** The destructor on the And-Inverter graph *)

Lemma aig_resolve sigs lit g :
  in_table sigs lit = true → resolve sigs lit g = Done (aig_resolved sigs lit, g).
Proof.
  intros Hin. destruct (vector_at_in_table _ _ Hin) as (s & E & El).
  unfold resolve, aig_resolved. rewrite E, El. simpl.
  by destruct (N.testbit lit 0).
Qed.

Lemma aig_default_output_name idx name g :
  aig.outs (default_output_name idx name g) = aig.outs g
  ∧ ∀ p, aig.output_names (default_output_name idx name g) !! p
         = if decide (p = idx)
           then Some (default name (aig.output_names g !! p))
           else aig.output_names g !! p.
Proof.
  unfold default_output_name. simpl. unfold aig.has_output_name.
  destruct (aig.output_names g !! idx) as [old|] eqn:E.
  - rewrite bool_decide_eq_true_2 by eauto. split; [done|].
    intros p. destruct (decide (p = idx)) as [->|]; [by rewrite E|done].
  - rewrite bool_decide_eq_false_2 by (by intros [? ?]). simpl. split; [done|].
    intros p. destruct (decide (p = idx)) as [->|].
    + by rewrite lookup_insert_eq, E.
    + by rewrite lookup_insert_ne.
Qed.

Lemma for_each_cons {A S : Type} (body : S → A → outcome S) (a : A) (l : list A) (st : S) :
  for_each body (a :: l) st = (body st a ≫= for_each body l).
Proof. reflexivity. Qed.

Lemma aig_output_step sigs f (out : N * string) :
  in_table sigs out.1 = true →
  output_step sigs f out
  = Done {| f_ntk := default_output_name (output_idx f)
                       ("po" +:+ to_string (output_idx f))
                       (aig.create_po (aig_resolved sigs out.1) (f_ntk f));
            f_names := NameMap.insert (aig_resolved sigs out.1) out.2 <$> f_names f;
            output_idx := wrap32 (output_idx f + 1);
            latch_idx := latch_idx f |}.
Proof. intros Hin. unfold output_step. by rewrite (aig_resolve _ _ _ Hin). Qed.

Lemma aig_latch_step sigs f (l : N * Z * string) :
  in_table sigs l.1.1 = true →
  latch_step sigs f l
  = Done {| f_ntk := default_output_name (output_idx f)
                       ("li" +:+ to_string (latch_idx f))
                       (aig.create_ri (aig_resolved sigs l.1.1) l.1.2 (f_ntk f));
            f_names := NameMap.insert (aig_resolved sigs l.1.1) (l.2 +:+ "_next")
                         <$> f_names f;
            output_idx := wrap32 (output_idx f + 1);
            latch_idx := wrap32 (latch_idx f + 1) |}.
Proof. intros Hin. unfold latch_step. by rewrite (aig_resolve _ _ _ Hin). Qed.

(** Cases on the position [p] in the two loop lemmas below. *)
Ltac position_cases p :=
  repeat match goal with
  | |- context [decide ?P] => destruct (decide P)
  | H : context [decide ?P] |- _ => destruct (decide P)
  end; try lia; try done.

(** The loop over [outputs]: one primary output per record, in order; the
    positions [output_idx] onwards get the default ["po<position>"] where
    they have no name. *)
Lemma aig_finalize_outputs sigs (outs : list (N * string)) f :
  forallb (in_table sigs) outs.*1 = true →
  output_idx f + N.of_nat (length outs) < 2 ^ 32 →
  ∃ f', for_each (output_step sigs) outs f = Done f'
    ∧ output_idx f' = output_idx f + N.of_nat (length outs)
    ∧ latch_idx f' = latch_idx f
    ∧ aig.outs (f_ntk f')
      = aig.outs (f_ntk f) ++ ((λ out, aig.po (aig_resolved sigs out.1)) <$> outs)
    ∧ ∀ p, aig.output_names (f_ntk f') !! p
           = if decide (output_idx f ≤ p < output_idx f + N.of_nat (length outs))
             then Some (default ("po" +:+ to_string p) (aig.output_names (f_ntk f) !! p))
             else aig.output_names (f_ntk f) !! p.
Proof.
  revert f. induction outs as [|out outs IH]; intros f Hin Hmax.
  - simpl. exists f. rewrite app_nil_r. split_and!; try done; [lia|].
    intros p. position_cases p.
  - simpl in Hin. apply andb_prop in Hin as [Hin1 Hin].
    simpl length in *.
    rewrite for_each_cons, (aig_output_step _ _ _ Hin1), bind_Done.
    rewrite (wrap32_small (output_idx f + 1)) by lia.
    match goal with |- context [for_each _ outs ?x] => set (f1 := x) end.
    destruct (IH f1 Hin) as (f' & E & Eoi & Eli & Eouts & Enames);
      [simpl; lia|].
    destruct (aig_default_output_name (output_idx f)
                ("po" +:+ to_string (output_idx f))
                (aig.create_po (aig_resolved sigs out.1) (f_ntk f))) as [Eo1 En1].
    exists f'. rewrite E, Eoi, Eli, Eouts. subst f1. simpl.
    simpl in Enames. rewrite Eo1. simpl. rewrite <- app_assoc. simpl.
    split_and!; try done; [lia|].
    intros p. rewrite Enames, En1. simpl.
    position_cases p. by subst p.
Qed.

(** The loop over [latches]: one register input per record, in order, with
    the stored reset code; the positions [output_idx] onwards get the default
    ["li<number>"], numbered from [latch_idx], where they have no name. *)
Lemma aig_finalize_latches sigs (ls : list (N * Z * string)) f :
  forallb (in_table sigs) ls.*1.*1 = true →
  output_idx f + N.of_nat (length ls) < 2 ^ 32 →
  latch_idx f + N.of_nat (length ls) < 2 ^ 32 →
  ∃ f', for_each (latch_step sigs) ls f = Done f'
    ∧ output_idx f' = output_idx f + N.of_nat (length ls)
    ∧ latch_idx f' = latch_idx f + N.of_nat (length ls)
    ∧ aig.outs (f_ntk f')
      = aig.outs (f_ntk f) ++ ((λ l, aig.ri (aig_resolved sigs l.1.1) l.1.2) <$> ls)
    ∧ ∀ p, aig.output_names (f_ntk f') !! p
           = if decide (output_idx f ≤ p < output_idx f + N.of_nat (length ls))
             then Some (default ("li" +:+ to_string (latch_idx f + (p - output_idx f)))
                          (aig.output_names (f_ntk f) !! p))
             else aig.output_names (f_ntk f) !! p.
Proof.
  revert f. induction ls as [|l ls IH]; intros f Hin Hmax Hmaxl.
  - simpl. exists f. rewrite app_nil_r. split_and!; try done; [lia..|].
    intros p. position_cases p.
  - simpl in Hin. apply andb_prop in Hin as [Hin1 Hin].
    simpl length in *.
    rewrite for_each_cons, (aig_latch_step _ _ _ Hin1), bind_Done.
    rewrite (wrap32_small (output_idx f + 1)) by lia.
    rewrite (wrap32_small (latch_idx f + 1)) by lia.
    match goal with |- context [for_each _ ls ?x] => set (f1 := x) end.
    destruct (IH f1 Hin) as (f' & E & Eoi & Eli & Eouts & Enames);
      [simpl; lia..|].
    destruct (aig_default_output_name (output_idx f)
                ("li" +:+ to_string (latch_idx f))
                (aig.create_ri (aig_resolved sigs l.1.1) l.1.2 (f_ntk f))) as [Eo1 En1].
    exists f'. rewrite E, Eoi, Eli, Eouts. subst f1. simpl.
    simpl in Enames. rewrite Eo1. simpl. rewrite <- app_assoc. simpl.
    split_and!; try done; [lia..|].
    intros p. rewrite Enames, En1. simpl.
    position_cases p.
    + do 4 f_equal. lia.
    + subst p. do 4 f_equal. lia.
Qed.

(** C6: [decode] destroys the reader once, after the last event, so its
    result is the destructor's on the reader the events have left; no callback
    has created an output or a register input before.  When the
    pending literals are inside the table and the pending records are fewer
    than the 32-bit counters can count, the destructor returns, and the graph
    has got, after the output positions it had: one primary output per
    pending output, in declaration order, then one register input per pending
    latch, in declaration order, with its reset code.  Counting positions
    from 0 (outputs first, latches next, one numbering), position [k] among
    the outputs has the name it had or else ["po<k>"], and the [k]-th latch,
    [k] from 0, at position [number of outputs + k], has the name that
    position had or else ["li<k+1>"]; positions beyond keep what they had. *)
Theorem finalization_order_and_default_names fuel assertions es g names r :
  run_events fuel assertions es (new g names) = Done r →
  forallb (in_table (signals r)) (outputs r).*1
    && forallb (in_table (signals r)) (latches r).*1.*1 = true →
  N.of_nat (length (outputs r) + length (latches r)) + 1 < 2 ^ 32 →
  ∃ g' names',
    decode fuel assertions es g names = Done (g', names')
    ∧ destructor r = Done (g', names')
    ∧ aig.outs (_ntk r) = aig.outs g
    ∧ aig.outs g'
      = aig.outs (_ntk r)
        ++ ((λ out, aig.po (aig_resolved (signals r) out.1)) <$> outputs r)
        ++ ((λ l, aig.ri (aig_resolved (signals r) l.1.1) l.1.2) <$> latches r)
    ∧ (∀ k, k < N.of_nat (length (outputs r)) →
         aig.output_names g' !! k
         = Some (default ("po" +:+ to_string k) (aig.output_names (_ntk r) !! k)))
    ∧ (∀ k, k < N.of_nat (length (latches r)) →
         aig.output_names g' !! (N.of_nat (length (outputs r)) + k)
         = Some (default ("li" +:+ to_string (k + 1))
                   (aig.output_names (_ntk r) !! (N.of_nat (length (outputs r)) + k))))
    ∧ (∀ p, N.of_nat (length (outputs r) + length (latches r)) ≤ p →
         aig.output_names g' !! p = aig.output_names (_ntk r) !! p).
Proof.
  intros Er [Hino Hinl]%andb_prop Hmax.
  unfold decode. rewrite Er. simpl.
  unfold destructor, finalize_outputs, finalize_latches.
  match goal with |- context [for_each _ (outputs r) ?x] => set (f0 := x) end.
  destruct (aig_finalize_outputs (signals r) (outputs r) f0 Hino)
    as (f1 & E1 & Eoi1 & Eli1 & Eouts1 & Enames1); [simpl; lia|].
  rewrite E1. simpl in *.
  destruct (aig_finalize_latches (signals r) (latches r) f1 Hinl)
    as (f2 & E2 & Eoi2 & Eli2 & Eouts2 & Enames2); [lia..|].
  rewrite E2. simpl.
  exists (f_ntk f2), (f_names f2). rewrite Eouts2, Eouts1, <- app_assoc.
  split_and!; try done.
  - by apply callbacks_create_no_output in Er.
  - intros k Hk. rewrite Enames2, Enames1, Eoi1.
    position_cases k.
  - intros k Hk. rewrite Enames2, Enames1, Eoi1, Eli1.
    position_cases k. do 4 f_equal. lia.
  - intros p Hp. rewrite Enames2, Enames1, Eoi1.
    position_cases p.
Qed.
End aig_facts.

(** ** The statements at concrete streams *)

Section streams.
Import aiger_reader.

(** C3, as stated, fails: after a header with two inputs the table has 3
    entries; the AND event with index 7 is not refused when assertions are
    compiled out: it returns and its conjunction becomes entry 3.  With
    assertions compiled in the same event ends in the failed [assert]. *)
Lemma and_event_with_wrong_index_is_processed :
  ∃ r r', run_events 2 false [header 3 2 0 1 1] (new aig.empty None) = Done r
    ∧ length (signals r) = 3%nat
    ∧ on_and false 7 2 4 r = Done r'
    ∧ signals r' = signals r ++ [node 3]
    ∧ on_and true 7 2 4 r = Aborted.
Proof. do 2 eexists. split_and!; vm_compute; reflexivity. Qed.

(** C5, as stated, fails: after a header with two inputs the table has 3
    entries; literal 100 has node index 50.  The AND event (3, 2, 100) reads
    the table past its end, with or without assertions, and so does the
    destructor for the output event (0, 100). *)
Lemma literal_outside_table_is_read :
  ∃ r, run_events 2 true [header 3 2 0 1 1] (new aig.empty None) = Done r
    ∧ length (signals r) = 3%nat
    ∧ in_table (signals r) 100 = false
    ∧ on_and true 3 2 100 r = Undefined
    ∧ on_and false 3 2 100 r = Undefined
    ∧ decode 2 true [header 3 2 0 1 1; output 0 100] aig.empty None = Undefined
    ∧ decode 2 false [header 3 2 0 1 1; output 0 100] aig.empty None = Undefined.
Proof. eexists. split_and!; vm_compute; reflexivity. Qed.

(** The latch scenario of the specification: one input, one latch whose next
    state is literal 3 (input 1, inverted) with reset value ONE, one output.
    The register input is bound to the inverted input 1 with reset code 1,
    sits after the output, and is named ["li1"]. *)
Example latch_scenario :
  ∃ g', decode 1 true [header 2 1 1 1 0; latch 0 3 ONE; output 0 2] aig.empty None
        = Done (g', None)
    ∧ aig.outs g' = [aig.po (node 1); aig.ri (aig.negate (node 1)) 1]
    ∧ aig.output_names g' !! 0 = Some "po0"
    ∧ aig.output_names g' !! 1 = Some "li1".
Proof. eexists. split_and!; vm_compute; reflexivity. Qed.

Lemma on_header_layout_witness :
  ∃ r', on_header 2 3 2 1 1 0 (new aig.empty None) = Done r'
    ∧ length (signals r') = 4%nat
    ∧ signals r' = [node 0; node 1; node 2; node 3]
    ∧ aig.inputs (_ntk r') = [1; 2]
    ∧ aig.registers (_ntk r') = [3].
Proof.
  destruct (on_header_layout 2 3 2 1 1 0 aig.empty None) as [Hreturns Hlayout].
  destruct Hreturns as [r' E]; [reflexivity|reflexivity|vm_compute; lia|].
  destruct (Hlayout r' E) as (El & Es & Ei & Er & _).
  exists r'. split_and!; [exact E|exact El|exact Es|exact Ei|exact Er].
Defined.

Lemma finalization_order_and_default_names_witness :
  ∃ g' names',
    decode 1 true [header 2 1 1 1 0; latch 0 3 ONE; output 0 2] aig.empty None
    = Done (g', names')
    ∧ aig.outs g' = [aig.po (node 1); aig.ri (aig.negate (node 1)) 1]
    ∧ aig.output_names g' !! 0 = Some "po0"
    ∧ aig.output_names g' !! (1 + 0) = Some "li1".
Proof.
  edestruct (finalization_order_and_default_names 1 true
               [header 2 1 1 1 0; latch 0 3 ONE; output 0 2] aig.empty None)
    as (g' & names' & E & _ & _ & Eouts & Epo & Eli & _);
    [vm_compute; reflexivity|vm_compute; reflexivity|vm_compute; reflexivity|].
  exists g', names'. split_and!.
  - exact E.
  - exact Eouts.
  - exact (Epo 0 eq_refl).
  - exact (Eli 0 eq_refl).
Defined.

End streams.


(** * Further properties *)

(** ** NameMap: lookups, [operator[]], order of calls *)

Section NameMap_more.
Context {signal : Type} `{Countable signal}.
Implicit Types (m : NameMap.t signal) (s : signal) (name : string).
Implicit Types (calls : list (signal * string)).

Lemma has_name_get_name s name m :
  NameMap.has_name s name m
  = bool_decide (name ∈ default [] (NameMap.get_name s m)).
Proof.
  unfold NameMap.has_name, NameMap.get_name.
  by destruct (NameMap._names m !! s) as [l|].
Qed.

Lemma get_name_empty s : NameMap.get_name s NameMap.empty = None.
Proof. apply lookup_empty. Qed.

Lemma elem_of_names_given s name calls :
  name ∈ NameMap.names_given s calls ↔ (s, name) ∈ calls.
Proof.
  unfold NameMap.names_given. rewrite list_elem_of_fmap. split.
  - intros ([s' n] & -> & Hin). apply list_elem_of_filter in Hin as [Hs Hin].
    simpl in Hs. by subst s'.
  - intros Hin. exists (s, name). split; [done|].
    apply list_elem_of_filter. by split.
Qed.

(** X1: on a [NameMap] filled by [insert] calls only, [has_name( s, name )]
    is true exactly when some call was [insert( s, name )]; for a signal
    without any call it is false, where [get_name] fails. *)
Theorem has_name_after_inserts calls s name :
  NameMap.has_name s name (NameMap.insert_all calls NameMap.empty)
  = bool_decide ((s, name) ∈ calls)
  ∧ (NameMap.get_name s (NameMap.insert_all calls NameMap.empty) = None
     ↔ s ∉ calls.*1).
Proof.
  split.
  - rewrite has_name_get_name, forward_insert_all, get_name_empty. simpl.
    apply bool_decide_ext, elem_of_names_given.
  - pose proof (forward_insert_all_is_Some calls NameMap.empty s) as Hs.
    rewrite get_name_empty in Hs.
    rewrite eq_None_not_Some, Hs. split.
    + intros Hno Hin. apply Hno. right.
      apply list_elem_of_fmap in Hin as ([s' n] & -> & Hin). simpl.
      intros Hnil. assert (n ∈ NameMap.names_given s' calls) as Hn
        by by apply elem_of_names_given.
      rewrite Hnil in Hn. by apply elem_of_nil in Hn.
    + intros Hno [[? ?]|Hne]; [done|].
      destruct (NameMap.names_given s calls) as [|n l] eqn:E; [done|].
      apply Hno. apply list_elem_of_fmap. exists (s, n). split; [done|].
      apply elem_of_names_given. rewrite E. by left.
Qed.

Lemma index_leaves_an_entry_aux s m :
  (∀ s' name, NameMap.has_name s' name (NameMap.index s m).2
              = NameMap.has_name s' name m)
  ∧ NameMap.get_name_to_signal_mapping (NameMap.index s m).2
    = NameMap.get_name_to_signal_mapping m.
Proof.
  split.
  - intros s' name. unfold NameMap.index, NameMap.has_name.
    destruct (NameMap._names m !! s) as [l|] eqn:E; simpl; [done|].
    destruct (decide (s' = s)) as [->|].
    + rewrite lookup_insert_eq, E. apply bool_decide_eq_false_2. set_solver.
    + by rewrite lookup_insert_ne.
  - unfold NameMap.index. by destruct (NameMap._names m !! s).
Qed.

(** X2: the non-const [operator[]] returns the names of the signal, the empty
    list for a signal without entry, and for such a signal it leaves an empty
    entry behind: [get_name] on that signal then returns the empty list
    instead of failing.  Nothing else changes: the names of every signal as
    [has_name] sees them, the entries of the other signals, the reverse
    map. *)
Theorem index_leaves_an_entry s m :
  (NameMap.index s m).1 = default [] (NameMap.get_name s m)
  ∧ NameMap.get_name s (NameMap.index s m).2 = Some (default [] (NameMap.get_name s m))
  ∧ (∀ s', NameMap.get_name s' (NameMap.index s m).2
           = if decide (s' = s) then Some (default [] (NameMap.get_name s m))
             else NameMap.get_name s' m)
  ∧ (∀ s' name, NameMap.has_name s' name (NameMap.index s m).2
                = NameMap.has_name s' name m)
  ∧ NameMap.get_name_to_signal_mapping (NameMap.index s m).2
    = NameMap.get_name_to_signal_mapping m.
Proof.
  assert (∀ s', NameMap.get_name s' (NameMap.index s m).2
                = if decide (s' = s) then Some (default [] (NameMap.get_name s m))
                  else NameMap.get_name s' m) as Hget.
  { intros s'. unfold NameMap.index, NameMap.get_name.
    destruct (NameMap._names m !! s) as [l|] eqn:E; simpl.
    - destruct (decide (s' = s)) as [->|]; [done|done].
    - destruct (decide (s' = s)) as [->|].
      + by rewrite lookup_insert_eq.
      + by rewrite lookup_insert_ne. }
  split_and!.
  - unfold NameMap.index, NameMap.get_name. by destruct (NameMap._names m !! s).
  - rewrite Hget. by rewrite decide_True.
  - exact Hget.
  - intros s' name. rewrite !has_name_get_name, Hget.
    destruct (decide (s' = s)) as [->|]; [|done]. simpl.
    by destruct (NameMap.get_name s m).
  - unfold NameMap.index. by destruct (NameMap._names m !! s).
Qed.

(** X3: on a [NameMap] that has seen [insert] and [operator[]] calls only,
    in any order, every entry of the reverse map is backed by the forward map:
    when [get_name_to_signal_mapping] gives signal [s] for a name, that name
    is one of the names of [s]. *)
Theorem reverse_entries_are_names (cs : list (name_map_call signal)) name :
  match NameMap.get_name_to_signal_mapping (name_map_run cs NameMap.empty) !! name with
  | Some s => NameMap.has_name s name (name_map_run cs NameMap.empty) = true
  | None => True
  end.
Proof.
  unfold name_map_run.
  assert (∀ m, (∀ n s, NameMap._rev_names m !! n = Some s → NameMap.has_name s n m = true) →
               ∀ n s, NameMap._rev_names (foldl name_map_apply m cs) !! n = Some s →
                      NameMap.has_name s n (foldl name_map_apply m cs) = true) as Hinv.
  { induction cs as [|c cs IH]; intros m Hm; simpl; [done|].
    apply IH. intros n s. destruct c as [s0 n0|s0]; cbn [name_map_apply].
    - rewrite reverse_insert_lookup, has_name_get_name.
      destruct (decide (s = s0)) as [->|Hne].
      + rewrite get_name_insert_eq. simpl. intros E.
        apply bool_decide_eq_true. apply elem_of_app.
        destruct (NameMap._rev_names m !! n) as [s1|] eqn:E1.
        * injection E as ->. left. apply Hm in E1.
          rewrite has_name_get_name in E1. by apply bool_decide_eq_true in E1.
        * destruct (decide (n0 = n)) as [->|]; [|done]. right. by left.
      + rewrite get_name_insert_ne by done. intros E.
        destruct (NameMap._rev_names m !! n) as [s1|] eqn:E1.
        * injection E as ->. apply Hm in E1. by rewrite has_name_get_name in E1.
        * destruct (decide (n0 = n)); [congruence|done].
    - destruct (index_leaves_an_entry_aux s0 m) as [Hhas Hrev].
      rewrite Hhas. unfold NameMap.get_name_to_signal_mapping in Hrev.
      rewrite Hrev. apply Hm. }
  unfold NameMap.get_name_to_signal_mapping.
  destruct (NameMap._rev_names (foldl name_map_apply NameMap.empty cs) !! name) as [s|] eqn:E;
    [|done].
  apply (Hinv NameMap.empty); [|done].
  intros n s'. simpl. by rewrite lookup_empty.
Qed.

(** X4: two [insert] calls for different signals under different names can be
    swapped: the [NameMap] is the same. *)
Theorem insert_commutes s1 s2 name1 name2 m :
  s1 ≠ s2 → name1 ≠ name2 →
  NameMap.insert s1 name1 (NameMap.insert s2 name2 m)
  = NameMap.insert s2 name2 (NameMap.insert s1 name1 m).
Proof.
  intros Hs Hn. unfold NameMap.insert. simpl. f_equal.
  - destruct (NameMap._names m !! s1) eqn:E1, (NameMap._names m !! s2) eqn:E2;
      rewrite !lookup_insert_ne by done; rewrite ?E1, ?E2;
      by apply insert_insert_ne.
  - destruct (NameMap._rev_names m !! name1) eqn:E1,
             (NameMap._rev_names m !! name2) eqn:E2;
      rewrite ?lookup_insert_ne by done; rewrite ?E1, ?E2; try done.
    by apply insert_insert_ne.
Qed.
End NameMap_more.

Lemma insert_commutes_witness :
  NameMap.insert 1 "a" (NameMap.insert 2 "b" NameMap.empty)
  = NameMap.insert 2 "b" (NameMap.insert 1 "a" NameMap.empty).
Proof. apply insert_commutes; discriminate. Defined.

(** ** The reader on any network: the table, the assertions, well-formed streams *)

Lemma in_table_ltb {A : Type} (sigs : list A) (lit : N) :
  in_table sigs lit = (N.shiftr lit 1 <? N.of_nat (length sigs)).
Proof.
  unfold in_table. destruct (N.shiftr lit 1 <? N.of_nat (length sigs)) eqn:E.
  - apply N.ltb_lt in E. apply bool_decide_eq_true_2. lia.
  - apply N.ltb_ge in E. apply bool_decide_eq_false_2. lia.
Qed.

Lemma vector_at_lt {A : Type} (v : list A) (i : N) :
  i < N.of_nat (length v) → ∃ a, vector_at v i = Done a.
Proof.
  intros Hi. unfold vector_at.
  destruct (lookup_lt_is_Some_2 v (N.to_nat i)) as [a E]; [lia|].
  rewrite E. eauto.
Qed.

Section reader_more.
Context {Ntk signal : Type} `{Network Ntk signal}.
Import aiger_reader.
Implicit Types (r : aiger_reader.t Ntk signal) (f : finalizer Ntk signal).
Implicit Types (sigs : list signal) (ntk : Ntk) (s : signal) (e : event).

Lemma run_events_cons fuel assertions e es r :
  run_events fuel assertions (e :: es) r
  = (r1 ← deliver fuel assertions e r; run_events fuel assertions es r1).
Proof. reflexivity. Qed.

(** What one callback that returns has changed in the reader. *)
Lemma deliver_frame fuel assertions e r r' :
  deliver fuel assertions e r = Done r' →
  (∃ pushed, signals r' = signals r ++ pushed
             ∧ N.of_nat (length pushed) = table_growth e)
  ∧ _num_inputs r' = next_num_inputs (_num_inputs r) e
  ∧ outputs r'
    = outputs r ++ match e with output _ lit => [(lit, EmptyString)] | _ => [] end
  ∧ latches r'
    = latches r ++ match e with
                   | latch _ next reset => [(next, reset_code reset, EmptyString)]
                   | _ => []
                   end
  ∧ _names r' = _names r.
Proof.
  assert (Hsame : signals r' = signals r →
                  ∃ pushed, signals r' = signals r ++ pushed ∧ N.of_nat (length pushed) = 0).
  { intros ->. exists []. by rewrite app_nil_r. }
  destruct e; simpl; intros E.
  - pose proof (on_header_table _ _ _ _ _ _ _ _ E) as (_ & _ & pis & ros & Es & Hp & Hr).
    unfold on_header in E.
    apply bind_is_Done in E as ([sigs1 ntk1] & _ & E).
    apply bind_is_Done in E as ([sigs2 ntk2] & _ & [= <-]). simpl in *.
    rewrite !app_nil_r. split_and!; try done.
    eexists. split; [exact Es|]. simpl. rewrite length_app. lia.
  - unfold on_input_name in E. destruct has_set_name_v.
    + apply bind_is_Done in E as (s & _ & [= <-]). simpl.
      rewrite !app_nil_r. split_and!; try done. by apply Hsame.
    + injection E as <-. rewrite !app_nil_r. split_and!; try done. by apply Hsame.
  - unfold on_output_name in E.
    destruct has_set_output_name_v; injection E as <-; simpl;
      rewrite !app_nil_r; (split_and!; try done); by apply Hsame.
  - unfold on_latch_name in E. destruct has_set_name_v.
    + apply bind_is_Done in E as (s & _ & [= <-]). simpl.
      rewrite !app_nil_r. split_and!; try done. by apply Hsame.
    + injection E as <-. rewrite !app_nil_r. split_and!; try done. by apply Hsame.
  - apply on_and_Done in E as (g & Es & Eo & El & En & Eni).
    rewrite !app_nil_r. split_and!; try done. exists [g]. by split.
  - injection E as <-. simpl. rewrite !app_nil_r. split_and!; try done. by apply Hsame.
  - unfold on_output in E. apply bind_is_Done in E as (_ & _ & [= <-]). simpl.
    rewrite !app_nil_r. split_and!; try done. by apply Hsame.
Qed.

Lemma total_growth_cons e es : total_growth (e :: es) = table_growth e + total_growth es.
Proof. reflexivity. Qed.

Lemma run_events_frame fuel assertions es r r' :
  run_events fuel assertions es r = Done r' →
  (∃ pushed, signals r' = signals r ++ pushed
             ∧ N.of_nat (length pushed) = total_growth es)
  ∧ (outputs r').*1 ++ (latches r').*1.*1
    ≡ₚ ((outputs r).*1 ++ (latches r).*1.*1) ++ pending_literals es
  ∧ _names r' = _names r.
Proof.
  revert r. induction es as [|e es IH]; intros r.
  - intros [= <-]. split_and!; [|by rewrite app_nil_r|done].
    exists []. by rewrite app_nil_r.
  - rewrite run_events_cons. intros E.
    apply bind_is_Done in E as (r1 & E1 & E).
    apply deliver_frame in E1 as ((p1 & Es1 & Hp1) & _ & Eo1 & El1 & En1).
    apply IH in E as ((p & Es & Hp) & Hpend & En).
    split_and!.
    + exists (p1 ++ p). rewrite Es, Es1, <- app_assoc. split; [done|].
      rewrite length_app, total_growth_cons. lia.
    + rewrite Hpend, Eo1, El1. unfold pending_literals.
      destruct e; simpl; rewrite ?app_nil_r; try done.
      * rewrite !fmap_app. simpl. by rewrite <- !app_assoc.
      * rewrite !fmap_app. simpl. rewrite <- !app_assoc. simpl.
        apply Permutation_app_head, Permutation_middle.
    + congruence.
Qed.

(** X5: across the callbacks the table only grows, at its end: after a run
    that returns, the table is the old one followed by the pushed signals, as
    many as the events account for ([1 + inputs + latches] per header, one per
    AND event, none otherwise).  So a literal inside the table stays inside,
    and stands for the same entry. *)
Theorem table_only_grows fuel assertions es r r' :
  run_events fuel assertions es r = Done r' →
  (∃ pushed, signals r' = signals r ++ pushed
             ∧ N.of_nat (length pushed) = total_growth es)
  ∧ ∀ lit, in_table (signals r) lit = true →
           in_table (signals r') lit = true
           ∧ vector_at (signals r') (N.shiftr lit 1) = vector_at (signals r) (N.shiftr lit 1).
Proof.
  intros E. apply run_events_frame in E as ((pushed & Es & Hp) & _).
  split; [by exists pushed|].
  intros lit Hin. unfold in_table, vector_at in *.
  apply bool_decide_eq_true in Hin. rewrite Es. split.
  - apply bool_decide_eq_true. rewrite length_app. lia.
  - by rewrite lookup_app_l.
Qed.

(** What the assertions of a callback compare. *)
Lemma deliver_assertions fuel e r :
  deliver fuel true e r
  = if index_ok (N.of_nat (length (signals r))) (N.of_nat (length (outputs r))) e
    then deliver fuel false e r
    else Aborted.
Proof.
  destruct e; simpl; try done.
  - unfold on_and, assert; simpl. by destruct (bool_decide _).
  - unfold on_output, assert; simpl. by destruct (bool_decide _).
Qed.

Lemma run_events_assertions fuel es r r' :
  run_events fuel true es r = Done r'
  ↔ run_events fuel false es r = Done r'
    ∧ indices_in_order (N.of_nat (length (signals r))) (N.of_nat (length (outputs r))) es
      = true.
Proof.
  revert r. induction es as [|e es IH]; intros r.
  - simpl. split; [intros ?; by split|by intros [? _]].
  - rewrite !run_events_cons, deliver_assertions. simpl.
    destruct (index_ok _ _ e) eqn:Hok; simpl; [|split; [done|by intros [_ ?]]].
    destruct (deliver fuel false e r) as [r1| | |] eqn:E1; simpl;
      [|split; [done|by intros [? _]]..].
    rewrite IH.
    apply deliver_frame in E1 as ((p1 & Es1 & Hp1) & _ & Eo1 & _).
    rewrite Es1, Eo1, !length_app.
    replace (N.of_nat (length (signals r) + length p1))
      with (N.of_nat (length (signals r)) + table_growth e) by lia.
    replace (N.of_nat (length (outputs r)
                       + length match e with
                                | output _ lit => [(lit, EmptyString)]
                                | _ => []
                                end))
      with (N.of_nat (length (outputs r)) + output_growth e)
      by (destruct e; simpl; lia).
    done.
Qed.

(** X6: the assertions only stop a run, they never change its result.  With
    assertions compiled in a run returns exactly when it returns without them
    and every AND event carries the length the table has at that event and
    every output event the number of outputs before it; the reader it leaves
    is then the same. *)
Theorem assertions_only_check_indices fuel es r r' :
  run_events fuel true es r = Done r'
  ↔ run_events fuel false es r = Done r'
    ∧ indices_in_order (N.of_nat (length (signals r))) (N.of_nat (length (outputs r))) es
      = true.
Proof. apply run_events_assertions. Qed.

(** *** Streams that are decoded *)

Lemma header_inputs_returns fuel i n sigs ntk :
  i ≤ n → n < 2 ^ 32 → (N.to_nat (n - i) ≤ fuel)%nat →
  ∃ res, header_inputs fuel i n sigs ntk = Done res.
Proof.
  revert i sigs ntk. induction fuel as [|fuel IH]; intros i sigs ntk Hle Hmax Hfuel; simpl.
  - rewrite (proj2 (N.ltb_ge i n)) by lia. eauto.
  - destruct (i <? n) eqn:Hlt; [|eauto]. apply N.ltb_lt in Hlt.
    destruct (create_pi ntk) as [s ntk1]. rewrite (wrap32_small (i + 1)) by lia.
    apply IH; lia.
Qed.

Lemma header_latches_returns fuel i n sigs ntk :
  i ≤ n → n < 2 ^ 32 → (N.to_nat (n - i) ≤ fuel)%nat →
  ∃ res, header_latches fuel i n sigs ntk = Done res.
Proof.
  revert i sigs ntk. induction fuel as [|fuel IH]; intros i sigs ntk Hle Hmax Hfuel; simpl.
  - rewrite (proj2 (N.ltb_ge i n)) by lia. eauto.
  - destruct (i <? n) eqn:Hlt; [|eauto]. apply N.ltb_lt in Hlt.
    destruct (create_ro ntk) as [s ntk1]. rewrite (wrap32_small (i + 1)) by lia.
    apply IH; lia.
Qed.

Lemma deliver_returns fuel e r :
  reference_ok (N.of_nat (length (signals r))) (_num_inputs r) e = true →
  (header_fuel [e] ≤ fuel)%nat →
  ∃ r', deliver fuel false e r = Done r'.
Proof.
  destruct e; simpl; intros Hok Hfuel.
  - apply andb_prop in Hok as [Hi%N.ltb_lt Hl%N.ltb_lt]. unfold on_header.
    match goal with |- context [header_inputs fuel 0 num_inputs ?x ?g] =>
      destruct (header_inputs_returns fuel 0 num_inputs x g) as [[sigs1 ntk1] E1];
        [lia..|]
    end.
    rewrite E1. simpl.
    destruct (header_latches_returns fuel 0 num_latches sigs1 ntk1) as [[sigs2 ntk2] E2];
      [lia..|].
    rewrite E2. simpl. eauto.
  - unfold on_input_name. destruct has_set_name_v; [|eauto].
    apply N.ltb_lt in Hok. destruct (vector_at_lt _ _ Hok) as [s ->]. simpl. eauto.
  - unfold on_output_name. destruct has_set_output_name_v; eauto.
  - unfold on_latch_name. destruct has_set_name_v; [|eauto].
    apply N.ltb_lt in Hok. destruct (vector_at_lt _ _ Hok) as [s ->]. simpl. eauto.
  - apply on_and_in_table. by rewrite !in_table_ltb.
  - unfold on_latch. eauto.
  - unfold on_output. simpl. eauto.
Qed.

Lemma run_events_returns fuel es r :
  references_in_range (N.of_nat (length (signals r))) (_num_inputs r) es = true →
  (header_fuel es ≤ fuel)%nat →
  ∃ r', run_events fuel false es r = Done r'.
Proof.
  revert r. induction es as [|e es IH]; intros r Hok Hfuel.
  - simpl. eauto.
  - simpl in Hok. apply andb_prop in Hok as [Hok1 Hok].
    destruct (deliver_returns fuel e r Hok1) as [r1 E1].
    { revert Hfuel. unfold header_fuel. simpl. destruct e; lia. }
    rewrite run_events_cons, E1. simpl.
    pose proof (deliver_frame _ _ _ _ _ E1) as ((p1 & Es1 & Hp1) & Eni & _).
    apply IH.
    + rewrite Es1, Eni, length_app.
      replace (N.of_nat (length (signals r) + length p1))
        with (N.of_nat (length (signals r)) + table_growth e) by lia.
      done.
    + revert Hfuel. unfold header_fuel. simpl. destruct e; lia.
Qed.

(** X7: a stream is decoded, on any network, with or without assertions and
    with or without a [NameMap], when it is well formed in this sense: the
    counts of a header fit the 32-bit counters; every AND event carries the
    length of the table as its index and literals that refer to entries
    already in the table; every output event carries the number of outputs
    before it; a name event names an entry of the table; and the literals of
    the outputs and latches refer to entries the table has at the end.  No
    assertion fails and no read is outside the table. *)
Theorem well_formed_stream_is_decoded fuel assertions es ntk names :
  references_in_range 0 0 es = true →
  forallb (λ lit, N.shiftr lit 1 <? total_growth es) (pending_literals es) = true →
  indices_in_order 0 0 es = true →
  (header_fuel es ≤ fuel)%nat →
  ∃ res, decode fuel assertions es ntk names = Done res.
Proof.
  intros Hrefs Hpend Hidx Hfuel.
  destruct (run_events_returns fuel es (new ntk names)) as [r' E]; [done..|].
  assert (run_events fuel assertions es (new ntk names) = Done r') as Ea.
  { destruct assertions; [|done]. by apply run_events_assertions. }
  unfold decode. rewrite Ea. simpl.
  pose proof (run_events_frame _ _ _ _ _ E) as ((pushed & Es & Hp) & Hperm & _).
  simpl in Es, Hperm.
  pose proof (destructor_outcome r') as Hd.
  assert (forallb (in_table (signals r')) ((outputs r').*1 ++ (latches r').*1.*1) = true)
    as Hall.
  { apply forallb_forall. intros lit Hin.
    apply (Permutation_in _ Hperm) in Hin.
    rewrite forallb_forall in Hpend. apply Hpend in Hin.
    rewrite in_table_ltb, Es. by rewrite Hp. }
  rewrite forallb_app in Hall. by rewrite Hall in Hd.
Qed.

(** *** The [NameMap] and the network *)

Lemma outcome_rel_bind {A1 A2 B1 B2 : Type} (R : A1 → A2 → Prop) (Q : B1 → B2 → Prop)
    (c1 : outcome A1) (c2 : outcome A2) (k1 : A1 → outcome B1) (k2 : A2 → outcome B2) :
  outcome_rel R c1 c2 →
  (∀ a1 a2, R a1 a2 → outcome_rel Q (k1 a1) (k2 a2)) →
  outcome_rel Q (c1 ≫= k1) (c2 ≫= k2).
Proof. destruct c1, c2; simpl; try done. intros HR Hk. by apply Hk. Qed.

Lemma outcome_rel_eq {A B : Type} (g : A → B) (c : outcome A) :
  outcome_rel (λ a1 a2, g a1 = g a2) c c.
Proof. by destruct c. Qed.

Lemma for_each_rel {A S1 S2 : Type} (R : S1 → S2 → Prop)
    (body1 : S1 → A → outcome S1) (body2 : S2 → A → outcome S2) (l : list A)
    (st1 : S1) (st2 : S2) :
  (∀ a t1 t2, R t1 t2 → outcome_rel R (body1 t1 a) (body2 t2 a)) →
  R st1 st2 →
  outcome_rel R (for_each body1 l st1) (for_each body2 l st2).
Proof.
  intros Hbody. revert st1 st2. induction l as [|a l IH]; intros st1 st2 HR; simpl; [done|].
  eapply outcome_rel_bind; [by apply Hbody|]. apply IH.
Qed.

Lemma deliver_same_reader fuel assertions e r1 r2 :
  same_reader r1 r2 →
  outcome_rel same_reader (deliver fuel assertions e r1) (deliver fuel assertions e r2).
Proof.
  intros (Entk & Eni & Eo & Es & El).
  destruct e; simpl.
  - unfold on_header. rewrite Entk, Es.
    destruct (header_inputs _ _ _ _ _) as [[sigs1 ntk1]| | |]; simpl; try done.
    destruct (header_latches _ _ _ _ _) as [[sigs2 ntk2]| | |]; simpl; try done.
  - unfold on_input_name. destruct has_set_name_v; [|done].
    rewrite Es. destruct (vector_at _ _); simpl; try done.
    unfold same_reader. simpl. by rewrite Entk.
  - unfold on_output_name. destruct has_set_output_name_v; [|done].
    unfold same_reader. simpl. by rewrite Entk.
  - unfold on_latch_name. destruct has_set_name_v; [|done].
    rewrite Es, Eni. destruct (vector_at _ _); simpl; try done.
    unfold same_reader. simpl. by rewrite Entk.
  - unfold on_and. rewrite Es, Entk.
    destruct (assert _ _); simpl; try done.
    destruct (resolve _ left_lit _) as [[s1 ntk1]| | |]; simpl; try done.
    destruct (resolve _ right_lit _) as [[s2 ntk2]| | |]; simpl; try done.
    destruct (create_and s1 s2 ntk2). simpl. unfold same_reader. simpl. by rewrite Eo, El.
  - unfold same_reader. simpl. by rewrite El.
  - unfold on_output. rewrite Eo.
    by destruct (assert _ _).
Qed.

Lemma output_step_same_finalizer sigs (out : N * string) f1 f2 :
  same_finalizer f1 f2 →
  outcome_rel same_finalizer (output_step sigs f1 out) (output_step sigs f2 out).
Proof.
  intros (Entk & Eoi & Eli). unfold output_step. rewrite Entk, Eoi, Eli.
  by destruct (resolve _ _ _) as [[s ntk1]| | |].
Qed.

Lemma latch_step_same_finalizer sigs (l : N * Z * string) f1 f2 :
  same_finalizer f1 f2 →
  outcome_rel same_finalizer (latch_step sigs f1 l) (latch_step sigs f2 l).
Proof.
  intros (Entk & Eoi & Eli). unfold latch_step. rewrite Entk, Eoi, Eli.
  by destruct (resolve _ _ _) as [[s ntk1]| | |].
Qed.

(** X8: the [NameMap] has no part in what is built: for the same stream and
    the same network, the network the decode leaves (or the way it ends) is
    the same with any [NameMap] and with none. *)
Theorem name_map_does_not_change_the_network fuel assertions es ntk names1 names2 :
  network_of (decode fuel assertions es ntk names1)
  = network_of (decode fuel assertions es ntk names2).
Proof.
  assert (outcome_rel (λ p1 p2, p1.1 = p2.1)
            (decode fuel assertions es ntk names1)
            (decode fuel assertions es ntk names2)) as Hrel.
  { unfold decode. eapply outcome_rel_bind.
    - apply (for_each_rel same_reader); [|done].
      intros e t1 t2. apply deliver_same_reader.
    - intros r1 r2 (Entk & _ & Eo & Es & El). unfold destructor.
      eapply outcome_rel_bind.
      + unfold finalize_outputs. rewrite Eo, Es.
        apply (for_each_rel same_finalizer); [|done].
        intros out t1 t2. apply output_step_same_finalizer.
      + intros f1 f2 Hf. eapply outcome_rel_bind.
        * unfold finalize_latches. rewrite El, Es.
          apply (for_each_rel same_finalizer); [|done].
          intros l t1 t2. apply latch_step_same_finalizer.
        * intros g1 g2 (Eg & _). simpl. done. }
  unfold network_of.
  destruct (decode fuel assertions es ntk names1) as [[g1 n1]| | |],
           (decode fuel assertions es ntk names2) as [[g2 n2]| | |];
    simpl in *; try done. by rewrite Hrel.
Qed.

(** *** Literals *)

(** X9: a literal is twice a table index plus a polarity bit, and [resolve]
    reads it back so: the literal [2 * i + b] is inside the table exactly
    when [i] is below its length, and it resolves to entry [i], negated by
    [create_not] exactly when [b] is set.  Every literal is of that form. *)
Theorem literal_of_index_and_polarity sigs i (b : bool) ntk lit :
  resolve sigs (2 * i + N.b2n b) ntk
  = (s ← vector_at sigs i; if b then Done (create_not s ntk) else Done (s, ntk))
  ∧ in_table sigs (2 * i + N.b2n b) = bool_decide (N.to_nat i < length sigs)%nat
  ∧ lit = 2 * N.shiftr lit 1 + N.b2n (N.testbit lit 0).
Proof.
  assert (N.shiftr (2 * i + N.b2n b) 1 = i) as Hs.
  { rewrite <- N.div2_spec, N.div2_div, N.add_comm. apply N.add_b2n_double_div2. }
  split_and!.
  - unfold resolve. by rewrite Hs, N.testbit_0_r.
  - unfold in_table. by rewrite Hs.
  - rewrite <- N.div2_spec, N.div2_div, N.bit0_mod. by apply N.div_mod.
Qed.
End reader_more.

(** ** The reader on the And-Inverter graph: names *)

Section aig_names.
Import aiger_reader.
Implicit Types (g : aig.t) (sigs : list aig.signal).
Implicit Types (r : aiger_reader.t aig.t aig.signal).
Implicit Types (f : finalizer aig.t aig.signal).

Lemma lookup_consecutive start count (j : nat) :
  (j < N.to_nat count)%nat → consecutive start count !! j = Some (start + N.of_nat j).
Proof.
  intros Hj. unfold consecutive. rewrite list_lookup_fmap, lookup_seq_lt by done.
  done.
Qed.

Lemma signal_eq_node (s : aig.signal) (i : N) :
  s = node i ↔ aig.index s = i ∧ aig.complement s = false.
Proof. destruct s as [j c]. unfold node. simpl. split; [by intros [= -> ->]|by intros [-> ->]]. Qed.

(** The names after the first loop of [on_header]: every new input that had
    no name has its default name, numbered from the counter. *)
Lemma aig_header_inputs_names fuel i n sigs g res :
  i ≤ n → n < 2 ^ 32 → header_inputs fuel i n sigs g = Done res →
  ∀ s, aig.signal_names res.2 !! s
       = if decide (aig.complement s = false
                    ∧ aig.num_nodes g ≤ aig.index s < aig.num_nodes g + (n - i))
         then Some (default ("pi" +:+ to_string (i + (aig.index s - aig.num_nodes g)))
                      (aig.signal_names g !! s))
         else aig.signal_names g !! s.
Proof.
  revert i sigs g. induction fuel as [|fuel IH]; intros i sigs g Hle Hmax; simpl.
  - destruct (i <? n) eqn:Hlt; [done|]. apply N.ltb_ge in Hlt. intros [= <-] s. simpl.
    destruct (decide _) as [[_ ?]|]; [lia|done].
  - destruct (i <? n) eqn:Hlt.
    + apply N.ltb_lt in Hlt. rewrite (wrap32_small (i + 1)) by lia.
      set (s0 := aig.mk_signal (aig.num_nodes g) false).
      set (g2 := if aig.has_name _ _ then _ else _).
      intros E s. rewrite (IH (i + 1) _ _ ltac:(lia) Hmax E s).
      assert (aig.num_nodes g2 = aig.num_nodes g + 1) as ->
        by (subst g2; by destruct (aig.has_name _ _)).
      assert (aig.signal_names g2 !! s
              = if decide (s = s0)
                then Some (default ("pi" +:+ to_string i) (aig.signal_names g !! s))
                else aig.signal_names g !! s) as ->.
      { subst g2. unfold aig.has_name. simpl.
        destruct (aig.signal_names g !! s0) as [old|] eqn:E0.
        - rewrite bool_decide_eq_true_2 by eauto. simpl.
          destruct (decide (s = s0)) as [->|]; [by rewrite E0|done].
        - rewrite bool_decide_eq_false_2 by (by intros [? ?]). simpl.
          destruct (decide (s = s0)) as [->|].
          + by rewrite lookup_insert_eq, E0.
          + by rewrite lookup_insert_ne. }
      destruct (decide (s = s0)) as [->|Hne].
      * subst s0. simpl.
        rewrite decide_False by lia. rewrite decide_True by (split; [done|lia]).
        do 4 f_equal. lia.
      * destruct (decide (aig.complement s = false
                          ∧ aig.num_nodes g + 1 ≤ aig.index s
                            < aig.num_nodes g + 1 + (n - (i + 1)))) as [[Hc Hr]|Hout].
        -- rewrite decide_True by (split; [done|lia]). do 4 f_equal. lia.
        -- rewrite decide_False; [done|]. intros [Hc Hr]. 
           destruct (decide (aig.index s = aig.num_nodes g)) as [Hi|Hi].
           ++ apply Hne. by apply signal_eq_node.
           ++ apply Hout. split; [done|lia].
    + apply N.ltb_ge in Hlt. intros [= <-] s. simpl.
      destruct (decide _) as [[_ ?]|]; [lia|done].
Qed.

Lemma aig_header_latches_names fuel i n sigs g res :
  header_latches fuel i n sigs g = Done res →
  aig.signal_names res.2 = aig.signal_names g.
Proof.
  revert i sigs g. induction fuel as [|fuel IH]; intros i sigs g; simpl.
  - destruct (i <? n); [done|]. by intros [= <-].
  - destruct (i <? n); [|by intros [= <-]].
    intros E. by apply IH in E as ->.
Qed.

Lemma consecutive_app start count1 count2 :
  consecutive start (count1 + count2)
  = consecutive start count1 ++ consecutive (start + count1) count2.
Proof.
  unfold consecutive.
  replace (N.to_nat (count1 + count2)) with (N.to_nat count1 + N.to_nat count2)%nat by lia.
  rewrite seq_app, fmap_app. f_equal. simpl.
  replace (seq (N.to_nat count1) (N.to_nat count2))
    with (Nat.add (N.to_nat count1) <$> seq 0 (N.to_nat count2))
    by (rewrite fmap_add_seq; f_equal; lia).
  rewrite <- list_fmap_compose.
  apply list_fmap_ext. intros _ k _. simpl. lia.
Qed.

Lemma aig_table_lookup start count (j : N) :
  j < count →
  vector_at (node 0 :: (node <$> consecutive start count)) (1 + j) = Done (node (start + j)).
Proof.
  intros Hj. unfold vector_at.
  replace (N.to_nat (1 + j)) with (S (N.to_nat j)) by lia. simpl.
  rewrite list_lookup_fmap, lookup_consecutive by lia. simpl.
  by rewrite N2Nat.id.
Qed.

(** [on_header] on a new reader, when it has returned. *)
Lemma aig_on_header_new fuel m num_inputs num_latches o a g names r' :
  on_header fuel m num_inputs num_latches o a (new g names) = Done r' →
  num_inputs < 2 ^ 32 ∧ num_latches < 2 ^ 32
  ∧ signals r' = node 0 :: (node <$> consecutive (aig.num_nodes g) (num_inputs + num_latches))
  ∧ _num_inputs r' = num_inputs ∧ outputs r' = [] ∧ latches r' = [] ∧ _names r' = names
  ∧ aig.num_nodes (_ntk r') = aig.num_nodes g + num_inputs + num_latches
  ∧ aig.inputs (_ntk r') = aig.inputs g ++ consecutive (aig.num_nodes g) num_inputs
  ∧ aig.registers (_ntk r')
    = aig.registers g ++ consecutive (aig.num_nodes g + num_inputs) num_latches
  ∧ aig.gates (_ntk r') = aig.gates g
  ∧ aig.outs (_ntk r') = aig.outs g
  ∧ aig.output_names (_ntk r') = aig.output_names g
  ∧ ∀ s, aig.signal_names (_ntk r') !! s
         = if decide (aig.complement s = false
                      ∧ aig.num_nodes g ≤ aig.index s < aig.num_nodes g + num_inputs)
           then Some (default ("pi" +:+ to_string (aig.index s - aig.num_nodes g))
                        (aig.signal_names g !! s))
           else aig.signal_names g !! s.
Proof.
  intros E. unfold on_header in E.
  apply bind_is_Done in E as ([sigs1 g1] & E1 & E).
  apply bind_is_Done in E as ([sigs2 g2] & E2 & [= <-]). simpl.
  assert (num_inputs < 2 ^ 32) as Hi.
  { destruct (N.lt_ge_cases num_inputs (2 ^ 32)) as [|Hge]; [done|].
    by rewrite header_inputs_overflow in E1. }
  assert (num_latches < 2 ^ 32) as Hl.
  { destruct (N.lt_ge_cases num_latches (2 ^ 32)) as [|Hge]; [done|].
    by rewrite header_latches_overflow in E2. }
  pose proof (aig_header_inputs_names _ _ _ _ _ _ (N.le_0_l _) Hi E1) as Hnames.
  pose proof (aig_header_latches_names _ _ _ _ _ _ E2) as Hnames2.
  apply (header_inputs_more_fuel _ (N.to_nat num_inputs)) in E1.
  apply (header_latches_more_fuel _ (N.to_nat num_latches)) in E2.
  destruct (aig_header_inputs (fuel + N.to_nat num_inputs) 0 num_inputs
              [aig.get_constant false g] g)
    as (g1' & E1' & En1 & Ei1 & Er1 & Eg1 & Eo1 & Eon1); [lia|done|lia|].
  pose proof (eq_trans (eq_sym E1) E1') as [= -> ->].
  destruct (aig_header_latches (fuel + N.to_nat num_latches) 0 num_latches
              ([aig.get_constant false g]
                 ++ (node <$> consecutive (aig.num_nodes g) (num_inputs - 0))) g1')
    as (g2' & E2' & En2 & Ei2 & Er2 & Eg2 & Eo2 & Eon2); [lia|done|lia|].
  pose proof (eq_trans (eq_sym E2) E2') as [= -> ->].
  simpl in Hnames, Hnames2.
  rewrite En2, Ei2, Er2, Eg2, Eo2, Eon2, En1, Ei1, Er1, Eg1, Eo1, Eon1, ?N.sub_0_r.
  split_and!; try done.
  - simpl. rewrite consecutive_app, fmap_app. done.
  - by apply wrap32_small.
  - intros s. rewrite Hnames2, Hnames, N.sub_0_r. by rewrite N.add_0_l.
Qed.

(** X10: after the header, given to a new reader, the [k]-th primary input
    ([k] from 0) has the name the graph had for that signal, or else the
    default name ["pi<k>"]; an input-name event for [k] then returns and gives
    that input the event's name, in place of the default, and changes no
    other name and no table entry. *)
Theorem input_name_replaces_default fuel m num_inputs num_latches o a g names r' k name :
  on_header fuel m num_inputs num_latches o a (new g names) = Done r' →
  k < num_inputs →
  aig.signal_names (_ntk r') !! node (aig.num_nodes g + k)
  = Some (default ("pi" +:+ to_string k)
            (aig.signal_names g !! node (aig.num_nodes g + k)))
  ∧ ∃ r'', on_input_name k name r' = Done r''
      ∧ aig.signal_names (_ntk r'') !! node (aig.num_nodes g + k) = Some name
      ∧ signals r'' = signals r'
      ∧ ∀ s, s ≠ node (aig.num_nodes g + k) →
             aig.signal_names (_ntk r'') !! s = aig.signal_names (_ntk r') !! s.
Proof.
  intros E Hk.
  apply aig_on_header_new in E as (Hi & Hl & Es & _ & _ & _ & _ & _ & _ & _ & _ & _ & _ & Hn).
  split.
  - rewrite Hn. simpl. rewrite decide_True by (split; [done|lia]).
    do 4 f_equal. lia.
  - unfold on_input_name. simpl.
    rewrite (wrap32_small (1 + k)) by lia.
    rewrite Es, aig_table_lookup by lia. simpl.
    eexists. split; [reflexivity|]. simpl. split_and!; [|done|].
    + by rewrite lookup_insert_eq.
    + intros s Hne. by rewrite lookup_insert_ne.
Qed.

(** X11: after the header, given to a new reader, with inputs and latches
    together fewer than the 32-bit index arithmetic can count, a latch-name
    event for [k] returns and names the [k]-th register output, the table entry
    after the constant and the inputs, and changes no other name. *)
Theorem latch_name_names_register_output
    fuel m num_inputs num_latches o a g names r' k name :
  on_header fuel m num_inputs num_latches o a (new g names) = Done r' →
  num_inputs + num_latches < 2 ^ 32 →
  k < num_latches →
  ∃ r'', on_latch_name k name r' = Done r''
    ∧ vector_at (signals r') (1 + num_inputs + k)
      = Done (node (aig.num_nodes g + num_inputs + k))
    ∧ aig.registers (_ntk r') !! (length (aig.registers g) + N.to_nat k)%nat
      = Some (aig.num_nodes g + num_inputs + k)
    ∧ aig.signal_names (_ntk r'') !! node (aig.num_nodes g + num_inputs + k) = Some name
    ∧ ∀ s, s ≠ node (aig.num_nodes g + num_inputs + k) →
           aig.signal_names (_ntk r'') !! s = aig.signal_names (_ntk r') !! s.
Proof.
  intros E Hsum Hk.
  apply aig_on_header_new in E
    as (Hi & Hl & Es & Eni & _ & _ & _ & _ & _ & Er & _ & _ & _ & Hn).
  assert (vector_at (signals r') (1 + num_inputs + k)
          = Done (node (aig.num_nodes g + num_inputs + k))) as Hat.
  { rewrite Es, <- N.add_assoc, aig_table_lookup by lia. by rewrite N.add_assoc. }
  unfold on_latch_name. simpl.
  rewrite Eni, (wrap32_small (1 + num_inputs + k)) by lia.
  rewrite Hat. simpl.
  eexists. split; [reflexivity|]. simpl. split_and!; [done| | |].
  - rewrite Er, lookup_app_r by lia.
    replace (length (aig.registers g) + N.to_nat k - length (aig.registers g))%nat
      with (N.to_nat k) by lia.
    rewrite lookup_consecutive by lia. by rewrite N2Nat.id.
  - by rewrite lookup_insert_eq.
  - intros s Hne. by rewrite lookup_insert_ne.
Qed.

(** X12: a name given to an output position by an output-name event is kept
    by the destructor, which only names positions without a name: with the
    pending literals inside the table and fewer pending records than the
    counters can count, the destructor returns and the position still has
    the event's name, whether or not an output or a latch sits there. *)
Theorem output_name_survives_destructor r index name :
  forallb (in_table (signals r)) (outputs r).*1
    && forallb (in_table (signals r)) (latches r).*1.*1 = true →
  N.of_nat (length (outputs r) + length (latches r)) + 1 < 2 ^ 32 →
  ∃ r1 g' names',
    on_output_name index name r = Done r1
    ∧ destructor r1 = Done (g', names')
    ∧ aig.output_names g' !! index = Some name.
Proof.
  intros [Hino Hinl]%andb_prop Hmax.
  set (f0 := {| f_ntk := aig.set_output_name index name (_ntk r); f_names := _names r;
                output_idx := 0; latch_idx := 1 |}).
  destruct (aig_finalize_outputs (signals r) (outputs r) f0 Hino)
    as (f1 & E1 & Eoi1 & Eli1 & _ & Enames1); [simpl; lia|].
  simpl in Eoi1, Eli1, Enames1.
  destruct (aig_finalize_latches (signals r) (latches r) f1 Hinl)
    as (f2 & E2 & _ & _ & _ & Enames2); [lia..|].
  eexists _, (f_ntk f2), (f_names f2).
  unfold on_output_name. simpl. split; [reflexivity|].
  unfold destructor, finalize_outputs, finalize_latches. simpl.
  fold f0. rewrite E1. simpl. rewrite E2. simpl. split; [reflexivity|].
  rewrite Enames2, Enames1. rewrite lookup_insert_eq. simpl.
  by repeat destruct (decide _).
Qed.


End aig_names.

(** ** The reader on the And-Inverter graph: the graph of a stream *)

Section aig_structure.
Import aiger_reader.
Implicit Types (g : aig.t) (sigs : list aig.signal).
Implicit Types (r : aiger_reader.t aig.t aig.signal).
Implicit Types (f : finalizer aig.t aig.signal).

Lemma aig_resolved_lit_signal sigs lit n :
  sigs = node <$> consecutive 0 n → in_table sigs lit = true →
  aig_resolved sigs lit = lit_signal lit.
Proof.
  intros -> Hin. unfold in_table in Hin. apply bool_decide_eq_true in Hin.
  rewrite length_fmap, length_consecutive in Hin.
  unfold aig_resolved, lit_signal.
  rewrite list_lookup_fmap, lookup_consecutive by done. simpl.
  rewrite N2Nat.id. by destruct (N.testbit lit 0).
Qed.

Lemma aig_resolve_is_resolved sigs lit g s g' :
  resolve sigs lit g = Done (s, g') →
  in_table sigs lit = true ∧ s = aig_resolved sigs lit ∧ g' = g.
Proof.
  intros E. pose proof (resolve_Done _ _ _ _ _ E) as [Hin _].
  rewrite (aig_resolve _ _ _ Hin) in E. by injection E as <- <-.
Qed.

(** A callback other than [on_header] keeps "entry [i] is node [i]", and
    only an AND event adds a node: its gate. *)
Lemma aig_deliver_structure fuel assertions e r r' :
  no_header [e] = true → table_is_nodes r →
  deliver fuel assertions e r = Done r' →
  table_is_nodes r'
  ∧ aig.num_nodes (_ntk r') = aig.num_nodes (_ntk r) + table_growth e
  ∧ aig.gates (_ntk r') = aig.gates (_ntk r) ++ gates_of (aig.num_nodes (_ntk r)) [e]
  ∧ aig.inputs (_ntk r') = aig.inputs (_ntk r)
  ∧ aig.registers (_ntk r') = aig.registers (_ntk r).
Proof.
  unfold table_is_nodes. intros Hnh Hinv.
  destruct e; simpl; intros E; try done.
  - unfold on_input_name in E. simpl in E.
    apply bind_is_Done in E as (s & _ & [= <-]). simpl.
    rewrite N.add_0_r, app_nil_r. done.
  - unfold on_output_name in E. simpl in E. injection E as <-. simpl.
    rewrite N.add_0_r, app_nil_r. done.
  - unfold on_latch_name in E. simpl in E.
    apply bind_is_Done in E as (s & _ & [= <-]). simpl.
    rewrite N.add_0_r, app_nil_r. done.
  - unfold on_and in E.
    apply bind_is_Done in E as (_ & _ & E).
    apply bind_is_Done in E as ([s1 g1] & E1 & E).
    apply aig_resolve_is_resolved in E1 as (Hin1 & -> & ->).
    apply bind_is_Done in E as ([s2 g2] & E2 & [= <-]).
    apply aig_resolve_is_resolved in E2 as (Hin2 & -> & ->). simpl.
    rewrite (aig_resolved_lit_signal _ _ _ Hinv Hin1),
            (aig_resolved_lit_signal _ _ _ Hinv Hin2).
    split_and!; try done.
    rewrite Hinv, consecutive_app, fmap_app. f_equal.
    unfold consecutive, node. simpl. do 2 f_equal. lia.
  - injection E as <-. simpl. rewrite N.add_0_r, app_nil_r. done.
  - unfold on_output in E. apply bind_is_Done in E as (_ & _ & [= <-]). simpl.
    rewrite N.add_0_r, app_nil_r. done.
Qed.

Lemma aig_run_structure fuel assertions es r r' :
  no_header es = true → table_is_nodes r →
  run_events fuel assertions es r = Done r' →
  table_is_nodes r'
  ∧ aig.num_nodes (_ntk r') = aig.num_nodes (_ntk r) + total_growth es
  ∧ aig.gates (_ntk r') = aig.gates (_ntk r) ++ gates_of (aig.num_nodes (_ntk r)) es
  ∧ aig.inputs (_ntk r') = aig.inputs (_ntk r)
  ∧ aig.registers (_ntk r') = aig.registers (_ntk r)
  ∧ outputs r' = outputs r ++ ((λ lit, (lit, EmptyString)) <$> output_literals es)
  ∧ latches r'
    = latches r ++ ((λ l : N * Z, (l.1, l.2, EmptyString)) <$> latch_records es).
Proof.
  revert r. induction es as [|e es IH]; intros r Hnh Hinv.
  - intros [= <-]. simpl. rewrite N.add_0_r, !app_nil_r. done.
  - rewrite run_events_cons. intros E.
    apply bind_is_Done in E as (r1 & E1 & E).
    simpl in Hnh. apply andb_prop in Hnh as [Hnh1 Hnh].
    pose proof (deliver_frame _ _ _ _ _ E1) as (_ & _ & Eo1 & El1 & _).
    apply aig_deliver_structure in E1 as (Hinv1 & En1 & Eg1 & Ei1 & Er1);
      [|by rewrite <- Hnh1; simpl; rewrite andb_true_r|done].
    apply IH in E as (Hinv' & En & Eg & Ei & Er & Eo & El); [|done..].
    rewrite En, Eg, Ei, Er, Eo, El, En1, Eg1, Ei1, Er1, Eo1, El1, total_growth_cons.
    rewrite <- !app_assoc.
    split_and!; try done.
    + lia.
    + f_equal. destruct e; simpl; try done; by rewrite N.add_0_r.
    + f_equal. by destruct e.
    + f_equal. by destruct e.
Qed.

Lemma aig_default_output_name_frame idx name g :
  aig.num_nodes (default_output_name idx name g) = aig.num_nodes g
  ∧ aig.inputs (default_output_name idx name g) = aig.inputs g
  ∧ aig.registers (default_output_name idx name g) = aig.registers g
  ∧ aig.gates (default_output_name idx name g) = aig.gates g
  ∧ aig.outs (default_output_name idx name g) = aig.outs g.
Proof. unfold default_output_name. simpl. by destruct (aig.has_output_name idx g). Qed.

Lemma aig_for_each_output_structure sigs (outs : list (N * string)) f f' :
  for_each (output_step sigs) outs f = Done f' →
  forallb (in_table sigs) outs.*1 = true
  ∧ aig.outs (f_ntk f')
    = aig.outs (f_ntk f) ++ ((λ lit, aig.po (aig_resolved sigs lit)) <$> outs.*1)
  ∧ aig.num_nodes (f_ntk f') = aig.num_nodes (f_ntk f)
  ∧ aig.inputs (f_ntk f') = aig.inputs (f_ntk f)
  ∧ aig.registers (f_ntk f') = aig.registers (f_ntk f)
  ∧ aig.gates (f_ntk f') = aig.gates (f_ntk f).
Proof.
  revert f. induction outs as [|out outs IH]; intros f.
  - intros [= <-]. simpl. by rewrite app_nil_r.
  - rewrite for_each_cons. intros E. apply bind_is_Done in E as (f1 & E1 & E).
    unfold output_step in E1. apply bind_is_Done in E1 as ([s g1] & Er & [= <-]).
    apply aig_resolve_is_resolved in Er as (Hin & -> & ->).
    apply IH in E as (Hall & -> & -> & -> & -> & ->). simpl f_ntk.
    match goal with |- context [default_output_name ?i ?n ?g] =>
      destruct (aig_default_output_name_frame i n g) as (-> & -> & -> & -> & ->) end.
    split_and!; try done.
    + change (in_table sigs out.1 && forallb (in_table sigs) outs.*1 = true).
      by rewrite Hin, Hall.
    + simpl. by rewrite <- app_assoc.
Qed.

Lemma aig_for_each_latch_structure sigs (ls : list (N * Z * string)) f f' :
  for_each (latch_step sigs) ls f = Done f' →
  forallb (in_table sigs) ls.*1.*1 = true
  ∧ aig.outs (f_ntk f')
    = aig.outs (f_ntk f) ++ ((λ l, aig.ri (aig_resolved sigs l.1) l.2) <$> ls.*1)
  ∧ aig.num_nodes (f_ntk f') = aig.num_nodes (f_ntk f)
  ∧ aig.inputs (f_ntk f') = aig.inputs (f_ntk f)
  ∧ aig.registers (f_ntk f') = aig.registers (f_ntk f)
  ∧ aig.gates (f_ntk f') = aig.gates (f_ntk f).
Proof.
  revert f. induction ls as [|l ls IH]; intros f.
  - intros [= <-]. simpl. by rewrite app_nil_r.
  - rewrite for_each_cons. intros E. apply bind_is_Done in E as (f1 & E1 & E).
    unfold latch_step in E1. apply bind_is_Done in E1 as ([s g1] & Er & [= <-]).
    apply aig_resolve_is_resolved in Er as (Hin & -> & ->).
    apply IH in E as (Hall & -> & -> & -> & -> & ->). simpl f_ntk.
    match goal with |- context [default_output_name ?i ?n ?g] =>
      destruct (aig_default_output_name_frame i n g) as (-> & -> & -> & -> & ->) end.
    split_and!; try done.
    + change (in_table sigs l.1.1 && forallb (in_table sigs) ls.*1.*1 = true).
      by rewrite Hin, Hall.
    + simpl. by rewrite <- app_assoc.
Qed.

Lemma fmap_resolved_lit_signal {A : Type} (h : aig.signal → A) sigs n (lits : list N) :
  sigs = node <$> consecutive 0 n → forallb (in_table sigs) lits = true →
  (λ lit, h (aig_resolved sigs lit)) <$> lits = (λ lit, h (lit_signal lit)) <$> lits.
Proof.
  intros Hs Hall. apply list_fmap_ext. intros i lit Hl.
  rewrite forallb_forall in Hall. f_equal.
  eapply aig_resolved_lit_signal; [done|]. apply Hall.
  apply list_elem_of_In. by eapply list_elem_of_lookup_2.
Qed.

(** X13: the graph of a stream.  A stream that starts with its header and has
    no other header, decoded into the empty graph: when the decode returns,
    the graph's primary inputs are the nodes 1 to [inputs], its register
    outputs the next [latches] nodes, its gates are the AND events in stream
    order, numbered from the node after the registers, each with the two
    signals its literals stand for (node [lit >> 1], complemented when
    [lit & 1]); its output slots are the output events in stream order, then
    the latch events in stream order with their reset codes; and it has as
    many nodes as the table has entries. *)
Theorem decoded_graph_follows_the_stream
    fuel assertions m num_inputs num_latches o a rest names g' names' :
  no_header rest = true →
  decode fuel assertions (header m num_inputs num_latches o a :: rest) aig.empty names
  = Done (g', names') →
  aig.inputs g' = consecutive 1 num_inputs
  ∧ aig.registers g' = consecutive (1 + num_inputs) num_latches
  ∧ aig.gates g' = gates_of (1 + num_inputs + num_latches) rest
  ∧ aig.outs g' = output_slots rest ++ latch_slots rest
  ∧ aig.num_nodes g' = total_growth (header m num_inputs num_latches o a :: rest).
Proof.
  intros Hnh E. unfold decode in E.
  apply bind_is_Done in E as (r' & Er & E).
  rewrite run_events_cons in Er. apply bind_is_Done in Er as (r1 & E1 & Er).
  simpl in E1. apply aig_on_header_new in E1
    as (Hi & Hl & Es1 & _ & Eo1 & El1 & _ & En1 & Ei1 & Er1 & Eg1 & Eouts1 & _).
  simpl in *.
  assert (table_is_nodes r1) as Hinv1.
  { unfold table_is_nodes. rewrite Es1, En1.
    replace (1 + num_inputs + num_latches) with (1 + (num_inputs + num_latches)) by lia.
    rewrite (consecutive_first 0) by lia.
    replace (1 + (num_inputs + num_latches) - 1) with (num_inputs + num_latches) by lia.
    done. }
  pose proof (callbacks_create_no_output _ _ _ _ _ Er) as Eouts.
  apply aig_run_structure in Er as (Hinv & En & Eg & Ei & Ereg & Eo & El); [|done..].
  unfold destructor in E.
  apply bind_is_Done in E as (f1 & Ef1 & E).
  apply bind_is_Done in E as (f2 & Ef2 & [= <- <-]).
  apply aig_for_each_output_structure in Ef1 as (Hall1 & Eout1 & En1' & Ei1' & Er1' & Eg1').
  apply aig_for_each_latch_structure in Ef2 as (Hall2 & Eout2 & En2' & Ei2' & Er2' & Eg2').
  simpl in *.
  rewrite Ei2', Er2', Eg2', En2', Eout2, Ei1', Er1', Eg1', En1', Eout1.
  rewrite Ei, Ereg, Eg, En, Eouts, Ei1, Er1, Eg1, En1, Eouts1.
  split_and!; try done.
  simpl. unfold output_slots, latch_slots.
  rewrite (fmap_resolved_lit_signal aig.po _ _ _ Hinv Hall1).
  rewrite Eo, Eo1, El, El1. simpl. rewrite <- !list_fmap_compose. f_equal.
  assert (forallb (in_table (signals r')) (latches r').*1.*1 = true) as Hall2' by done.
  rewrite El, El1 in Hall2'. simpl in Hall2'.
  rewrite <- !list_fmap_compose in Hall2'.
  apply list_fmap_ext. intros i [next code] Hl'. simpl. f_equal.
  eapply aig_resolved_lit_signal; [exact Hinv|].
  rewrite forallb_forall in Hall2'. apply Hall2'.
  apply list_elem_of_In, list_elem_of_fmap. exists (next, code). split; [done|].
  by eapply list_elem_of_lookup_2.
Qed.
End aig_structure.

(** ** The further properties at concrete streams *)

Section streams_more.
Import aiger_reader.

Lemma table_only_grows_witness :
  ∃ r' pushed,
    run_events 2 true [header 3 2 0 1 1; and_gate 3 2 4; output 0 6] (new aig.empty None)
    = Done r'
    ∧ signals r' = signals (new aig.empty None) ++ pushed
    ∧ N.of_nat (length pushed)
      = total_growth [header 3 2 0 1 1; and_gate 3 2 4; output 0 6].
Proof.
  eassert (run_events 2 true [header 3 2 0 1 1; and_gate 3 2 4; output 0 6]
             (new aig.empty None) = Done _) as E
    by (vm_compute; reflexivity).
  destruct (table_only_grows _ _ _ _ _ E) as [(pushed & Es & Hp) _].
  eexists _, pushed. split; [exact E|]. split; [exact Es|exact Hp].
Defined.

Lemma assertions_only_check_indices_witness :
  ∃ r',
    run_events 2 false [header 3 2 0 1 1; and_gate 3 2 4; output 0 6] (new aig.empty None)
    = Done r'
    ∧ indices_in_order 0 0 [header 3 2 0 1 1; and_gate 3 2 4; output 0 6] = true.
Proof.
  eassert (run_events 2 true [header 3 2 0 1 1; and_gate 3 2 4; output 0 6]
             (new aig.empty None) = Done _) as E
    by (vm_compute; reflexivity).
  apply assertions_only_check_indices in E as [E Hidx].
  eexists. split; [exact E|exact Hidx].
Defined.

Lemma well_formed_stream_is_decoded_witness :
  ∃ res, decode 2 true [header 3 2 0 1 1; and_gate 3 2 4; output 0 6] aig.empty None
         = Done res.
Proof.
  apply well_formed_stream_is_decoded.
  - reflexivity.
  - reflexivity.
  - reflexivity.
  - simpl. lia.
Defined.

Lemma input_name_replaces_default_witness :
  ∃ r' r'',
    on_header 2 3 2 1 1 0 (new aig.empty None) = Done r'
    ∧ aig.signal_names (_ntk r') !! node 2 = Some "pi1"
    ∧ on_input_name 1 "x" r' = Done r''
    ∧ aig.signal_names (_ntk r'') !! node 2 = Some "x".
Proof.
  eassert (on_header 2 3 2 1 1 0 (new aig.empty None) = Done _) as E
    by (vm_compute; reflexivity).
  destruct (input_name_replaces_default _ _ _ _ _ _ _ _ _ 1 "x" E eq_refl)
    as (Hdefault & r'' & E' & Hname & _).
  eexists _, r''. split_and!; [exact E|exact Hdefault|exact E'|exact Hname].
Defined.

Lemma latch_name_names_register_output_witness :
  ∃ r' r'',
    on_header 2 3 2 1 1 0 (new aig.empty None) = Done r'
    ∧ on_latch_name 0 "q" r' = Done r''
    ∧ aig.registers (_ntk r') !! 0%nat = Some 3
    ∧ aig.signal_names (_ntk r'') !! node 3 = Some "q".
Proof.
  eassert (on_header 2 3 2 1 1 0 (new aig.empty None) = Done _) as E
    by (vm_compute; reflexivity).
  destruct (latch_name_names_register_output _ _ _ _ _ _ _ _ _ 0 "q" E eq_refl eq_refl)
    as (r'' & E' & _ & Hreg & Hname & _).
  eexists _, r''. split_and!; [exact E|exact E'|exact Hreg|exact Hname].
Defined.

Lemma output_name_survives_destructor_witness :
  ∃ r r1 g' names',
    run_events 1 true [header 2 1 1 1 0; latch 0 3 ONE; output 0 2] (new aig.empty None)
    = Done r
    ∧ on_output_name 0 "y" r = Done r1
    ∧ destructor r1 = Done (g', names')
    ∧ aig.output_names g' !! 0 = Some "y".
Proof.
  eassert (run_events 1 true [header 2 1 1 1 0; latch 0 3 ONE; output 0 2]
             (new aig.empty None) = Done _) as E
    by (vm_compute; reflexivity).
  match type of E with _ = Done ?r =>
    destruct (output_name_survives_destructor r 0 "y") as (r1 & g' & names' & E1 & Ed & Hn)
  end.
  - vm_compute. reflexivity.
  - vm_compute. reflexivity.
  - eexists _, r1, g', names'. split_and!; [exact E|exact E1|exact Ed|exact Hn].
Defined.

Lemma decoded_graph_follows_the_stream_witness :
  ∃ g' names',
    decode 2 true [header 3 2 0 1 1; and_gate 3 2 4; output 0 6] aig.empty None
    = Done (g', names')
    ∧ aig.inputs g' = consecutive 1 2
    ∧ aig.gates g' = [(3, node 1, node 2)]
    ∧ aig.outs g' = [aig.po (node 3)].
Proof.
  eassert (decode 2 true [header 3 2 0 1 1; and_gate 3 2 4; output 0 6] aig.empty None
           = Done (_, _)) as E
    by (vm_compute; reflexivity).
  destruct (decoded_graph_follows_the_stream 2 true 3 2 0 1 1
              [and_gate 3 2 4; output 0 6] None _ _ eq_refl E)
    as (Hi & _ & Hg & Ho & _).
  eexists _, _. split_and!; [exact E|exact Hi|exact Hg|exact Ho].
Defined.

End streams_more.

(** ** Polarity, latch events and their names *)

Section events_to_names.
Context {Ntk signal : Type} `{Network Ntk signal}.
Import aiger_reader.
Implicit Types (r : aiger_reader.t Ntk signal) (sigs : list signal) (ntk : Ntk).

Lemma resolve_reads_entry sigs lit ntk (s0 : signal) :
  sigs !! N.to_nat (N.shiftr lit 1) = Some s0 →
  resolve sigs lit ntk = Done (if N.testbit lit 0 then create_not s0 ntk else (s0, ntk)).
Proof.
  intros E. unfold resolve, vector_at. rewrite E. simpl. by destruct (N.testbit lit 0).
Qed.

(** The pending buffers hold the output events and the latch events of the
    stream, in stream order, each with the empty name. *)
Lemma run_events_buffers fuel assertions es r r' :
  run_events fuel assertions es r = Done r' →
  outputs r' = outputs r ++ ((λ lit, (lit, EmptyString)) <$> output_literals es)
  ∧ latches r'
    = latches r ++ ((λ l : N * Z, (l.1, l.2, EmptyString)) <$> latch_records es).
Proof.
  revert r. induction es as [|e es IH]; intros r.
  - intros [= <-]. simpl. by rewrite !app_nil_r.
  - rewrite run_events_cons. intros E.
    apply bind_is_Done in E as (r1 & E1 & E).
    apply deliver_frame in E1 as (_ & _ & Eo1 & El1 & _).
    apply IH in E as [-> ->]. rewrite Eo1, El1, <- !app_assoc.
    split; f_equal; by destruct e.
Qed.

Lemma decode_returns_when_well_formed fuel assertions es ntk names :
  references_in_range 0 0 es = true →
  forallb (λ lit, N.shiftr lit 1 <? total_growth es) (pending_literals es) = true →
  indices_in_order 0 0 es = true →
  (header_fuel es ≤ fuel)%nat →
  ∃ res, decode fuel assertions es ntk names = Done res.
Proof.
  intros Hrefs Hpend Hidx Hfuel.
  destruct (run_events_returns fuel es (new ntk names)) as [r' E]; [done..|].
  assert (run_events fuel assertions es (new ntk names) = Done r') as Ea.
  { destruct assertions; [|done]. by apply run_events_assertions. }
  unfold decode. rewrite Ea. simpl.
  pose proof (run_events_frame _ _ _ _ _ E) as ((pushed & Es & Hp) & Hperm & _).
  simpl in Es, Hperm.
  pose proof (destructor_outcome r') as Hd.
  assert (forallb (in_table (signals r')) ((outputs r').*1 ++ (latches r').*1.*1) = true)
    as Hall.
  { apply forallb_forall. intros lit Hin.
    apply (Permutation_in _ Hperm) in Hin.
    rewrite forallb_forall in Hpend. apply Hpend in Hin.
    rewrite in_table_ltb, Es. by rewrite Hp. }
  rewrite forallb_app in Hall. by rewrite Hall in Hd.
Qed.

Lemma has_name_insert_all_elem (calls : list (signal * string)) (m : NameMap.t signal)
    (s : signal) (name : string) :
  (s, name) ∈ calls → NameMap.has_name s name (NameMap.insert_all calls m) = true.
Proof.
  intros Hin. rewrite has_name_get_name, forward_insert_all.
  apply bool_decide_eq_true, elem_of_app. right. by apply elem_of_names_given.
Qed.

(** C10: when a [NameMap] is supplied, the decode of a well-formed stream
    returns, and whenever a decode returns the [NameMap] it leaves is the
    supplied one after these [insert] calls, in this order: for every output
    event of the stream, in stream order, the signal its literal resolves to,
    under the empty name; then for every latch event of the stream, in stream
    order, the signal its next-state literal resolves to, under the name
    ["_next"].  Every latch event is in the reader's buffer with the empty
    name, so the stored name with ["_next"] appended is ["_next"], and
    [has_name] then finds ["_next"] on each of those signals. *)
Theorem latch_next_state_names fuel assertions es ntk m :
  (references_in_range 0 0 es = true →
   forallb (λ lit, N.shiftr lit 1 <? total_growth es) (pending_literals es) = true →
   indices_in_order 0 0 es = true →
   (header_fuel es ≤ fuel)%nat →
   ∃ res, decode fuel assertions es ntk (Some m) = Done res)
  ∧ ∀ ntk' names',
      decode fuel assertions es ntk (Some m) = Done (ntk', names') →
      ∃ r so sl m',
        run_events fuel assertions es (new ntk (Some m)) = Done r
        ∧ latches r = (λ l : N * Z, (l.1, l.2, EmptyString)) <$> latch_records es
        ∧ Forall2 (λ lit s, resolves_to (signals r) lit s) (output_literals es) so
        ∧ Forall2 (λ (l : N * Z) s, resolves_to (signals r) l.1 s) (latch_records es) sl
        ∧ names' = Some m'
        ∧ m' = NameMap.insert_all
                 (((λ s, (s, EmptyString)) <$> so) ++ ((λ s, (s, "_next")) <$> sl)) m
        ∧ Forall (λ s, NameMap.has_name s "_next" m' = true) sl.
Proof.
  split; [apply decode_returns_when_well_formed|].
  intros ntk' names' E.
  apply decode_names_of_pending in E as (r & so & sl & Er & _ & Hso & Hsl & ->).
  pose proof (run_events_buffers _ _ _ _ _ Er) as [Eo El]. simpl in Eo, El.
  rewrite Eo in Hso. rewrite El in Hsl.
  rewrite Forall2_fmap_l in Hso. rewrite Forall2_fmap_l in Hsl.
  eexists r, so, sl, _.
  split_and!; [exact Er|exact El|exact Hso|exact Hsl|reflexivity|reflexivity|].
  apply Forall_forall. intros s Hs. apply has_name_insert_all_elem.
  apply elem_of_app. right. apply list_elem_of_fmap. by exists s.
Qed.
End events_to_names.

Section latch_and_polarity.
Import aiger_reader.

(** C7: for every literal [lit] whose node index is inside the table, with
    [s0] the table entry at [lit >> 1].  On every network: resolving [lit]
    returns, with [s0] when [lit & 1] is clear and with the network's negation
    of [s0] when it is set, and resolving [lit ^ 1] returns with the other of
    the two.  On the And-Inverter graph: resolving [lit] returns [s0], negated
    exactly when [lit & 1] is set; resolving [lit ^ 1] returns the same entry
    with the other polarity; and resolving [lit] and then applying the graph's
    negation returns what resolving [lit ^ 1] returns, the same signal on the
    same graph. *)
Theorem resolve_polarity_involutive :
  (∀ (Ntk signal : Type) `(Network Ntk signal) (sigs : list signal) (lit : N) (ntk : Ntk),
     in_table sigs lit = true →
     ∃ s0,
       sigs !! N.to_nat (N.shiftr lit 1) = Some s0
       ∧ resolve sigs lit ntk
         = Done (if N.testbit lit 0 then create_not s0 ntk else (s0, ntk))
       ∧ resolve sigs (N.lxor lit 1) ntk
         = Done (if N.testbit lit 0 then (s0, ntk) else create_not s0 ntk))
  ∧ ∀ (sigs : list aig.signal) (lit : N) (g : aig.t),
      in_table sigs lit = true →
      ∃ s0,
        sigs !! N.to_nat (N.shiftr lit 1) = Some s0
        ∧ resolve sigs lit g = Done (if N.testbit lit 0 then aig.negate s0 else s0, g)
        ∧ resolve sigs (N.lxor lit 1) g
          = Done (if N.testbit lit 0 then s0 else aig.negate s0, g)
        ∧ ('(s, g1) ← resolve sigs lit g; Done (create_not s g1))
          = Done (if N.testbit lit 0 then s0 else aig.negate s0, g)
        ∧ ('(s, g1) ← resolve sigs lit g; Done (create_not s g1))
          = resolve sigs (N.lxor lit 1) g.
Proof.
  assert (∀ (Ntk signal : Type) `(Network Ntk signal) (sigs : list signal) (lit : N)
            (ntk : Ntk),
            in_table sigs lit = true →
            ∃ s0,
              sigs !! N.to_nat (N.shiftr lit 1) = Some s0
              ∧ resolve sigs lit ntk
                = Done (if N.testbit lit 0 then create_not s0 ntk else (s0, ntk))
              ∧ resolve sigs (N.lxor lit 1) ntk
                = Done (if N.testbit lit 0 then (s0, ntk) else create_not s0 ntk))
    as Hall.
  { intros Ntk signal ? ? HN sigs lit ntk Hin.
    destruct (vector_at_in_table _ _ Hin) as (s0 & _ & El).
    assert (sigs !! N.to_nat (N.shiftr (N.lxor lit 1) 1) = Some s0) as El'
      by by rewrite shiftr_lxor_1.
    exists s0. split; [done|]. split; [by apply resolve_reads_entry|].
    rewrite (resolve_reads_entry sigs (N.lxor lit 1) ntk s0 El'), testbit_lxor_1.
    by destruct (N.testbit lit 0). }
  split; [exact Hall|].
  intros sigs lit g Hin.
  destruct (Hall aig.t aig.signal _ _ aig.network sigs lit g Hin) as (s0 & El & E1 & E2).
  assert (aig.negate (aig.negate s0) = s0) as Hneg
    by (destruct s0 as [i c]; by destruct c).
  exists s0. split; [done|].
  assert (resolve sigs lit g = Done (if N.testbit lit 0 then aig.negate s0 else s0, g))
    as E1' by (rewrite E1; by destruct (N.testbit lit 0)).
  assert (resolve sigs (N.lxor lit 1) g
          = Done (if N.testbit lit 0 then s0 else aig.negate s0, g))
    as E2' by (rewrite E2; by destruct (N.testbit lit 0)).
  split; [done|]. split; [done|].
  assert (('(s, g1) ← resolve sigs lit g; Done (create_not s g1))
          = Done (if N.testbit lit 0 then s0 else aig.negate s0, g)) as E3.
  { rewrite E1'. simpl. unfold aig.create_not.
    destruct (N.testbit lit 0); [by rewrite Hneg|done]. }
  split; [done|]. by rewrite E3, E2'.
Qed.

(** C9: [on_latch] returns, on every network, and all it changes is
    [latches], which gets one record at its end: the next-state literal, the
    reset value as -1 for NONDETERMINISTIC, 1 for ONE and 0 for ZERO, and the
    empty name; the network, the table, the outputs and the [NameMap] pointer
    are as before.  On the And-Inverter graph, with the pending literals and
    the new one inside the table: [on_latch] has added no slot to the graph;
    the destructor of the old reader and that of the new one return, and the
    graph of the new one has the slots of the old one and then, last, one
    register input, bound to the signal the next-state literal resolves to,
    with that reset value; nodes, inputs, registers and gates are the
    same. *)
Theorem on_latch_only_records :
  (∀ (Ntk signal : Type) `(Network Ntk signal) index next reset
     (r : aiger_reader.t Ntk signal),
     ∃ r', on_latch index next reset r = Done r'
       ∧ _ntk r' = _ntk r ∧ signals r' = signals r ∧ outputs r' = outputs r
       ∧ _num_inputs r' = _num_inputs r ∧ _names r' = _names r
       ∧ latches r'
         = latches r
           ++ [(next,
                match reset with
                | ZERO => 0%Z
                | ONE => 1%Z
                | NONDETERMINISTIC => (-1)%Z
                end,
                EmptyString)])
  ∧ ∀ index next reset (r : aiger_reader.t aig.t aig.signal),
      forallb (in_table (signals r)) (outputs r).*1
        && forallb (in_table (signals r)) (latches r).*1.*1
        && in_table (signals r) next = true →
      ∃ r' g0 names0 g' names',
        on_latch index next reset r = Done r'
        ∧ aig.outs (_ntk r') = aig.outs (_ntk r)
        ∧ destructor r = Done (g0, names0)
        ∧ destructor r' = Done (g', names')
        ∧ aig.outs g0
          = aig.outs (_ntk r)
            ++ ((λ lit, aig.po (aig_resolved (signals r) lit)) <$> (outputs r).*1)
            ++ ((λ l, aig.ri (aig_resolved (signals r) l.1) l.2) <$> (latches r).*1)
        ∧ aig.outs g'
          = aig.outs g0
            ++ [aig.ri (aig_resolved (signals r) next)
                  match reset with
                  | ZERO => 0%Z
                  | ONE => 1%Z
                  | NONDETERMINISTIC => (-1)%Z
                  end]
        ∧ aig.num_nodes g' = aig.num_nodes g0 ∧ aig.inputs g' = aig.inputs g0
        ∧ aig.registers g' = aig.registers g0 ∧ aig.gates g' = aig.gates g0.
Proof.
  split.
  - intros Ntk signal ? ? HN index next reset r.
    eexists. split; [reflexivity|]. simpl. by split_and!.
  - intros index next reset r [[Hino Hinl]%andb_prop Hin]%andb_prop.
    destruct (on_latch_then_destructor index next reset r)
      as (r' & Er' & Entk & _ & _ & _ & _ & _ & Ed' & _).
    pose proof (destructor_outcome r) as Hd. rewrite Hino, Hinl in Hd.
    destruct Hd as [[g0 names0] Ed].
    pose proof Ed as Ed0. unfold destructor in Ed0.
    apply bind_is_Done in Ed0 as (f1 & E1 & Ed0).
    apply bind_is_Done in Ed0 as (f2 & E2 & [= <- <-]).
    rewrite E1 in Ed'. simpl in Ed'. rewrite E2 in Ed'. simpl in Ed'.
    rewrite (aig_latch_step _ f2 (next, reset_code reset, EmptyString) Hin) in Ed'.
    simpl in Ed'.
    unfold finalize_outputs in E1. unfold finalize_latches in E2.
    apply aig_for_each_output_structure in E1 as (_ & Eo1 & _).
    apply aig_for_each_latch_structure in E2 as (_ & Eo2 & _).
    simpl in Eo1.
    match type of Ed' with _ = Done (default_output_name ?i ?n ?g, _) =>
      destruct (aig_default_output_name_frame i n g) as (Hn & Hi & Hr & Hg & Ho)
    end.
    eexists r', (f_ntk f2), (f_names f2), _, _.
    split_and!; [exact Er'|by rewrite Entk|exact Ed|exact Ed'|..].
    + by rewrite Eo2, Eo1, <- app_assoc.
    + rewrite Ho. simpl. by destruct reset.
    + by rewrite Hn.
    + by rewrite Hi.
    + by rewrite Hr.
    + by rewrite Hg.
Qed.
End latch_and_polarity.

Section latch_streams.
Import aiger_reader.

Lemma resolve_polarity_involutive_witness :
  resolve [node 0; node 1] 3 aig.empty = Done (aig.negate (node 1), aig.empty)
  ∧ resolve [node 0; node 1] (N.lxor 3 1) aig.empty = Done (node 1, aig.empty)
  ∧ ('(s, g1) ← resolve [node 0; node 1] 3 aig.empty; Done (create_not s g1))
    = resolve [node 0; node 1] (N.lxor 3 1) aig.empty.
Proof.
  destruct resolve_polarity_involutive as [_ Haig].
  destruct (Haig [node 0; node 1] 3 aig.empty eq_refl)
    as (s0 & El & E1 & E2 & _ & E3).
  simpl in El. injection El as <-.
  split_and!; [exact E1|exact E2|exact E3].
Defined.

Lemma on_latch_only_records_witness :
  ∃ r r' g' names',
    run_events 1 true [header 2 1 1 1 0; output 0 2] (new aig.empty None) = Done r
    ∧ on_latch 0 3 ONE r = Done r'
    ∧ latches r' = [(3, 1%Z, EmptyString)]
    ∧ destructor r' = Done (g', names')
    ∧ aig.outs g' = [aig.po (node 1); aig.ri (aig.negate (node 1)) 1].
Proof.
  eassert (run_events 1 true [header 2 1 1 1 0; output 0 2] (new aig.empty None) = Done _)
    as E by (vm_compute; reflexivity).
  destruct on_latch_only_records as [Hframe Hri].
  match type of E with _ = Done ?r0 => set (r := r0) in * end.
  destruct (Hframe aig.t aig.signal _ _ aig.network 0 3 ONE r) as (r1 & Er1 & _ & _ & _ & _ & _ & El).
  destruct (Hri 0 3 ONE r)
    as (r' & g0 & names0 & g' & names' & Er' & _ & _ & Ed' & Eo0 & Eo' & _).
  { vm_compute. reflexivity. }
  rewrite Er1 in Er'. injection Er' as <-.
  exists r, r1, g', names'.
  split_and!; [exact E|exact Er1|exact El|exact Ed'|].
  rewrite Eo', Eo0. vm_compute. reflexivity.
Defined.

Lemma latch_next_state_names_witness :
  ∃ g' m',
    decode 1 true [header 2 1 1 1 0; latch 0 3 ONE; output 0 2]
      aig.empty (Some NameMap.empty)
    = Done (g', Some m')
    ∧ NameMap.has_name (aig.negate (node 1)) "_next" m' = true
    ∧ m' = NameMap.insert_all
             [(node 1, EmptyString); (aig.negate (node 1), "_next")] NameMap.empty.
Proof.
  destruct (latch_next_state_names 1 true [header 2 1 1 1 0; latch 0 3 ONE; output 0 2]
              aig.empty NameMap.empty) as [Hret Hnames].
  destruct Hret as [[g' names'] E]; [reflexivity|reflexivity|reflexivity|simpl; lia|].
  destruct (Hnames g' names' E) as (r & so & sl & m' & Er & _ & Hso & Hsl & -> & Em & Hhas).
  vm_compute in Er. injection Er as <-.
  apply Forall2_cons_inv_l in Hso as (s1 & so' & Hs1 & Hso' & ->).
  apply Forall2_nil_inv_l in Hso' as ->.
  apply Forall2_cons_inv_l in Hsl as (s2 & sl' & Hs2 & Hsl' & ->).
  apply Forall2_nil_inv_l in Hsl' as ->.
  destruct Hs1 as (e1 & Hl1 & Hs1). vm_compute in Hl1. injection Hl1 as <-.
  destruct Hs2 as (e2 & Hl2 & Hs2). vm_compute in Hl2. injection Hl2 as <-.
  simpl in Hs1, Hs2. destruct Hs2 as [g2 Hs2]. subst s1 s2.
  apply Forall_cons_1 in Hhas as [Hhas _].
  exists g', m'. split_and!; [exact E|exact Hhas|exact Em].
Defined.
End latch_streams.
